(** * Agent graphs of lang-sandbox: tool-calling loop, routing and fan-out

    A shallow embedding of the TypeScript sources
    - graph.ts (the StateGraph agent: llmCall, toolNode, shouldContinue),
    - functional.ts (the entrypoint agent: callLlm, callTool, the while loop),
    - complex-graph-auto-trace.ts (routeByCategory, enrichDataNode),
    - devin-mcp-graph.ts (checkError, shouldAnswerQuestion),
    followed by the properties the specification states about them.  The
    libraries the sources call (the executor and the message reducer of
    @langchain/langgraph, [tool.invoke] of @langchain/core) are modelled from
    the specification, each where it is defined below. *)

From stdpp Require Import base option list strings gmap pretty.
From Stdlib Require Import Ascii String ZArith QArith Lia.

Set Default Proof Using "Type".
Set Warnings "-register-all".
Local Close Scope Q_scope.
Local Open Scope string_scope.
Local Open Scope list_scope.

(** ** JavaScript values *)

(** JavaScript numbers are IEEE doubles.  Their arithmetic is kept abstract:
    the tool bodies [a + b], [a * b], [a / b] and the number-to-string
    conversion are the operations of this interface. *)
Class JsNumber := {
  num : Type;
  num_add : num -> num -> num;
  num_mul : num -> num -> num;
  num_div : num -> num -> num;
  num_show : num -> string;
}.

(** An instance on integers, for running the definitions on concrete inputs.
    Sums and products of safe integers are exact in doubles; the quotient is
    the double quotient only where the divisor divides the dividend. *)
Definition ZNumber : JsNumber :=
  {| num := Z; num_add := Z.add; num_mul := Z.mul; num_div := Z.div;
     num_show := pretty |}.

Module Js.
Section Values.
Context {N : JsNumber}.

Inductive jsval :=
| JUndefined
| JNull
| JBool (b : bool)
| JNum (n : num)
| JStr (s : string)
| JArr (l : list jsval)
| JObj (o : list (string * jsval)).

(** ToBoolean on the values that occur (NaN does not occur in JSON). *)
Definition truthy_string (s : string) : bool :=
  negb (String.eqb s EmptyString).

(** WhiteSpace and LineTerminator code units below 256; a character of a
    Rocq string stands for one UTF-16 code unit. *)
Definition is_white_space (c : ascii) : bool :=
  let n := nat_of_ascii c in
  (Nat.eqb n 9 || Nat.eqb n 10 || Nat.eqb n 11 || Nat.eqb n 12
   || Nat.eqb n 13 || Nat.eqb n 32 || Nat.eqb n 160)%bool.

Fixpoint trim_start (s : string) : string :=
  match s with
  | EmptyString => EmptyString
  | String c rest => if is_white_space c then trim_start rest else s
  end.

Definition trim_end (s : string) : string :=
  String.rev (trim_start (String.rev s)).

(** [String.prototype.trim] *)
Definition trim (s : string) : string := trim_end (trim_start s).

(** A template literal: its text and the values interpolated into it.  One
    call of the [trace] utility writes one such line to the console. *)
Inductive fragment :=
| Lit (text : string)
| Val (v : jsval).

Definition console_line : Type := list fragment.

(** The one-character string made of a double quote. *)
Definition dquote : string := String (ascii_of_nat 34) EmptyString.
End Values.
End Js.
Export Js.

(** ** Messages, tool calls, errors and the effects of a walk *)

Module Core.
Section Core.
Context {N : JsNumber}.

(** [ToolCall] of @langchain/core: [{ name, args, id }]. *)
Record ToolCall := {
  name : string;
  args : gmap string jsval;
  call_id : string;   (* [id] in the source *)
}.

(** What the model returns: the fields of an ai-role message.  The source
    reads [tool_calls] with [?.] and [??], so it may be undefined. *)
Record AIResponse := {
  ai_content : string;
  tool_calls : option (list ToolCall);
}.

(** Tagged union over the roles. *)
Inductive Message :=
| SystemMessage (content : string)
| HumanMessage (content : string)
| AIMessage (ai : AIResponse)
| ToolMessage (content : string) (tool_call_id : string) (tool_name : string).

Definition _getType (m : Message) : string :=
  match m with
  | SystemMessage _ => "system"
  | HumanMessage _ => "human"
  | AIMessage _ => "ai"
  | ToolMessage _ _ _ => "tool"
  end.

(** [(m as AIMessage).tool_calls]: undefined on the other roles. *)
Definition tool_calls_of (m : Message) : option (list ToolCall) :=
  match m with
  | AIMessage ai => tool_calls ai
  | _ => None
  end.

(** [x?.length] as a condition: defined and not 0. *)
Definition has_length {A} (x : option (list A)) : bool :=
  match x with
  | Some (_ :: _) => true
  | _ => false
  end.

(** [x ?? []] *)
Definition or_empty {A} (x : option (list A)) : list A :=
  match x with
  | Some l => l
  | None => []
  end.

Inductive error :=
| TypeError            (* a property read on undefined *)
| ValidationError      (* tool arguments fail the schema *)
| ProviderError        (* the model call failed *)
| ConfigurationError   (* bad wiring: no edge, unmapped label, unknown node *)
| StepLimitExceeded.

Inductive result (A : Type) :=
| Ok (a : A)
| Err (e : error).
Global Arguments Ok {A} a.
Global Arguments Err {A} e.

(** The outside world of one walk.  The model provider is an oracle: its
    [n]-th call answers [oracle n] (a response or a failure), whatever it is
    sent; [sent] records the prompts, [invoked] the tool calls whose body
    was run, in order. *)
Record World := {
  oracle : nat -> result AIResponse;
  calls : nat;
  sent : list (list Message);
  invoked : list ToolCall;
}.

(** Effectful computations: read and extend the world, succeed or throw. *)
Definition M (A : Type) : Type := World -> result A * World.

Definition ret {A} (a : A) : M A := fun w => (Ok a, w).

Definition throw {A} (e : error) : M A := fun w => (Err e, w).

Definition bind {A B} (m : M A) (k : A -> M B) : M B :=
  fun w =>
    match m w with
    | (Ok a, w') => k a w'
    | (Err e, w') => (Err e, w')
    end.

(** [model.invoke(messages)] *)
Definition model_invoke (messagesToSend : list Message) : M AIResponse :=
  fun w =>
    (oracle w (calls w),
     {| oracle := oracle w; calls := S (calls w);
        sent := sent w ++ [messagesToSend]; invoked := invoked w |}).

(** *** Tools *)

(** The zod types the tool schemas use. *)
Inductive ztype := ZNumberT | ZStringT.

Definition has_ztype (t : ztype) (v : jsval) : bool :=
  match t, v with
  | ZNumberT, JNum _ => true
  | ZStringT, JStr _ => true
  | _, _ => false
  end.

(** What a tool body returns here: a number or a string. *)
Inductive tool_output :=
| OutNum (n : num)
| OutStr (s : string).

Record Tool := {
  tool_name_of : string;
  description : string;
  schema : list (string * ztype);
  func : gmap string jsval -> tool_output;
}.

(** [z.object({...}).parse]: every declared key is present with a value of
    its type; other keys are ignored. *)
Definition validate (sch : list (string * ztype)) (a : gmap string jsval) : bool :=
  forallb (fun kt => match a !! kt.1 with
                     | Some v => has_ztype kt.2 v
                     | None => false
                     end) sch.

Definition stringify (o : tool_output) : string :=
  match o with
  | OutNum n => num_show n
  | OutStr s => s
  end.

(** Modelled from the spec: [tool.invoke(toolCall)] belongs to
    @langchain/core and is not under src/.  Section 6 gives the tool
    interface: arguments are validated against the declared schema before
    the body runs, the call may fail with [ValidationError], and (section 3)
    the result is the output value tagged with the originating call id. *)
Definition Tool_invoke (t : Tool) (toolCall : ToolCall) : M Message :=
  fun w =>
    if validate (schema t) (args toolCall) then
      (Ok (ToolMessage (stringify (func t (args toolCall))) (call_id toolCall)
             (tool_name_of t)),
       {| oracle := oracle w; calls := calls w; sent := sent w;
          invoked := invoked w ++ [toolCall] |})
    else (Err ValidationError, w).

(** [tool.invoke(toolCall)] where [tool = toolsByName[toolCall.name]] may be
    undefined: calling a method on undefined throws a TypeError. *)
Definition invoke_tool (tool : option Tool) (toolCall : ToolCall) : M Message :=
  match tool with
  | Some t => Tool_invoke t toolCall
  | None => throw TypeError
  end.

(** Modelled from the spec: the reducer of the message channel
    ([MessagesAnnotation], [addMessages] of @langchain/langgraph) is not
    under src/.  Section 3: append merge, the new items are concatenated to
    the existing sequence in arrival order. *)
Definition addMessages (left right : list Message) : list Message :=
  left ++ right.

(** [MessagesAnnotation.State], also the shape of a partial update. *)
Record MessagesState := { messages : list Message }.

Definition merge_messages (state update : MessagesState) : MessagesState :=
  {| messages := addMessages (messages state) (messages update) |}.
End Core.
End Core.
Export Core.

Notation "'let*' x ':=' m 'in' k" := (bind m (fun x => k))
  (at level 10, x name, m at level 100, k at level 200).

(** ** The graph executor *)

Module Executor.

(** [START] and [END] of @langchain/langgraph. *)
Definition START : string := "__start__".
Definition END : string := "__end__".

Section Executor.
Context {St W : Type}.

(** A static edge has one destination.  A conditional edge has a routing
    function from the state to a label and the declared mapping from labels
    to destinations. *)
Inductive Edge :=
| Static (src dst : string)
| Conditional (src : string) (route : St -> string)
    (mapping : list (string * string)).

Definition edge_src (e : Edge) : string :=
  match e with
  | Static src _ => src
  | Conditional src _ _ => src
  end.

(** The graph descriptor: the merge of a partial update into the state, the
    nodes by name and the edge table. *)
Record StateGraph := {
  merge : St -> St -> St;
  nodes : list (string * (St -> W -> result St * W));
  edges : list Edge;
}.

(** [addConditionalEdges(src, route, [n1, ...])]: the routing function
    returns the destination itself, so each declared name maps to itself. *)
Definition path_list (dsts : list string) : list (string * string) :=
  map (fun d => (d, d)) dsts.

Fixpoint assoc {B} (k : string) (l : list (string * B)) : option B :=
  match l with
  | [] => None
  | (k', v) :: rest => if String.eqb k k' then Some v else assoc k rest
  end.

Definition outgoing (es : list Edge) (n : string) : list Edge :=
  filter (fun e => edge_src e = n) es.

(** Step (4) of section 4.1: a static edge is taken; for a conditional edge
    the routing function runs on the just-merged state and its label is looked
    up in the declared mapping, an absent label being a configuration error. *)
Definition resolve (es : list Edge) (cur : string) (s : St) : result string :=
  match outgoing es cur with
  | [] => Err ConfigurationError
  | Static _ dst :: _ => Ok dst
  | Conditional _ route mapping :: _ =>
      match assoc (route s) mapping with
      | Some dst => Ok dst
      | None => Err ConfigurationError
      end
  end.

(** What a walk leaves behind: its outcome, the nodes executed in order, the
    state after each merge, and the world. *)
Record Run := {
  outcome : result St;
  executed : list string;
  snapshots : list St;
  world : W;
}.

Definition stopped (o : result St) (ex : list string) (sn : list St) (w : W) : Run :=
  {| outcome := o; executed := ex; snapshots := sn; world := w |}.

(** Modelled from the spec: the executor ([compile] and [invoke] of
    @langchain/langgraph) is not under src/.  Section 4.1, run time: each step
    executes the current node on the current state; on failure the walk stops
    with the error; on success the partial update is merged, the next node is
    resolved, and the walk stops with the final state when that is [END].  At
    most [limit] nodes are executed: a walk that would need more fails with
    [StepLimitExceeded]. *)
Fixpoint walk (g : StateGraph) (limit : nat) (cur : string) (s : St) (w : W) : Run :=
  match limit with
  | O => stopped (Err StepLimitExceeded) [] [] w
  | S limit' =>
      match assoc cur (nodes g) with
      | None => stopped (Err ConfigurationError) [] [] w
      | Some node =>
          match node s w with
          | (Err e, w') => stopped (Err e) [cur] [] w'
          | (Ok update, w') =>
              let s' := merge g s update in
              match resolve (edges g) cur s' with
              | Err e => stopped (Err e) [cur] [s'] w'
              | Ok next =>
                  if String.eqb next END then stopped (Ok s') [cur] [s'] w'
                  else
                    let r := walk g limit' next s' w' in
                    stopped (outcome r) (cur :: executed r)
                      (s' :: snapshots r) (world r)
              end
          end
      end
  end.

(** [graph.invoke(initialState)]: the walk starts at the node reached from
    [START]. *)
Definition invoke (g : StateGraph) (limit : nat) (s : St) (w : W) : Run :=
  match resolve (edges g) START s with
  | Err e => stopped (Err e) [] [] w
  | Ok entry =>
      if String.eqb entry END then stopped (Ok s) [] [] w
      else walk g limit entry s w
  end.
End Executor.
Global Arguments Edge : clear implicits.
Global Arguments StateGraph : clear implicits.
Global Arguments Run : clear implicits.
End Executor.
Export Executor.

(** ** The calculator tools of graph.ts and functional.ts *)

Module Calculator.
Section Calculator.
Context {N : JsNumber}.

Definition number_pair : list (string * ztype) :=
  [("a", ZNumberT); ("b", ZNumberT)].

(** The body [({ a, b }) => op a b].  [Tool_invoke] runs it only on arguments
    that passed [number_pair], where both are numbers; the other branch is
    not reached. *)
Definition on_a_b (op : num -> num -> num) (a : gmap string jsval) : tool_output :=
  match a !! "a", a !! "b" with
  | Some (JNum x), Some (JNum y) => OutNum (op x y)
  | _, _ => OutStr "NaN"
  end.

Definition add : Tool :=
  {| tool_name_of := "add"; description := "Add two numbers";
     schema := number_pair; func := on_a_b num_add |}.

Definition multiply : Tool :=
  {| tool_name_of := "multiply"; description := "Multiply two numbers";
     schema := number_pair; func := on_a_b num_mul |}.

Definition divide : Tool :=
  {| tool_name_of := "divide"; description := "Divide two numbers";
     schema := number_pair; func := on_a_b num_div |}.

Definition toolsByName : gmap string Tool :=
  <[tool_name_of divide := divide]>
    (<[tool_name_of multiply := multiply]>
       (<[tool_name_of add := add]> ∅)).

Definition SYSTEM_PROMPT : string :=
  "You are a helpful assistant tasked with performing arithmetic on a set of inputs.".
End Calculator.
End Calculator.

(** ** graph.ts

    graph-trace.ts has the same nodes, routing function and wiring, with
    console output added. *)

Module Graph.
Import Calculator.
Section Graph.
Context {N : JsNumber}.

Definition llmCall (state : MessagesState) : M MessagesState :=
  let* response := model_invoke (SystemMessage SYSTEM_PROMPT :: messages state) in
  ret {| messages := [AIMessage response] |}.

(** The body of [for (const toolCall of ...)]: each call is looked up, run
    and its observation pushed; a throw leaves the loop and the node. *)
Fixpoint for_toolCalls (toolCalls : list ToolCall) (result : list Message)
  : M (list Message) :=
  match toolCalls with
  | [] => ret result
  | toolCall :: rest =>
      let tool := toolsByName !! name toolCall in
      let* observation := invoke_tool tool toolCall in
      for_toolCalls rest (result ++ [observation])
  end.

Definition toolNode (state : MessagesState) : M MessagesState :=
  match last (messages state) with
  | None => ret {| messages := [] |}
  | Some lastMessage =>
      if negb (String.eqb (_getType lastMessage) "ai") then
        ret {| messages := [] |}
      else
        let* result := for_toolCalls (or_empty (tool_calls_of lastMessage)) [] in
        ret {| messages := result |}
  end.

Definition shouldContinue (state : MessagesState) : string :=
  match last (messages state) with
  | None => END
  | Some lastMessage =>
      if negb (String.eqb (_getType lastMessage) "ai") then END
      else if has_length (tool_calls_of lastMessage) then "toolNode"
      else END
  end.

Definition agent : StateGraph MessagesState World :=
  {| merge := merge_messages;
     nodes := [("llmCall", llmCall); ("toolNode", toolNode)];
     edges := [Static START "llmCall";
               Conditional "llmCall" shouldContinue (path_list ["toolNode"; END]);
               Static "toolNode" "llmCall"] |}.
End Graph.
End Graph.

(** ** functional.ts

    functional-trace.ts and the plain variant without console output have the
    same tasks and the same loop. *)

Module Functional.
Import Calculator.
Section Functional.
Context {N : JsNumber}.

(** The prompt is also printed to the console; the printing is left out. *)
Definition callLlm (messages : list Message) : M AIResponse :=
  let messagesToSend := SystemMessage SYSTEM_PROMPT :: messages in
  model_invoke messagesToSend.

Definition callTool (toolCall : ToolCall) : M Message :=
  let tool := toolsByName !! name toolCall in
  let* result := invoke_tool tool toolCall in
  ret result.

(** [Promise.all(tool_calls.map((toolCall) => callTool(toolCall)))]: [map]
    starts every call, in the order of the calls, so a call that can be
    executed runs its tool whether or not another call of the round fails.
    The results come in the order of the calls and one rejection rejects the
    whole; when several calls fail, the first of them in the order of the
    calls is taken to reject first. *)
Fixpoint all_callTool (toolCalls : list ToolCall) : M (list Message) :=
  match toolCalls with
  | [] => ret []
  | toolCall :: rest =>
      fun w =>
        let '(r, w1) := callTool toolCall w in
        let '(rs, w2) := all_callTool rest w1 in
        (match r, rs with
         | Err e, _ => Err e
         | Ok _, Err e => Err e
         | Ok m, Ok ms => Ok (m :: ms)
         end, w2)
  end.

(** The [while (true)] loop, with [fuel] bounding its iterations: [None] when
    the fuel runs out before the loop breaks. *)
Fixpoint agent_loop (fuel : nat) (messages : list Message)
  (modelResponse : AIResponse) (w : World)
  : option (result (list Message) * World) :=
  match fuel with
  | O => None
  | S fuel' =>
      if negb (has_length (tool_calls modelResponse)) then Some (Ok messages, w)
      else
        match all_callTool (or_empty (tool_calls modelResponse)) w with
        | (Err e, w1) => Some (Err e, w1)
        | (Ok toolResults, w1) =>
            let messages' :=
              addMessages messages (AIMessage modelResponse :: toolResults) in
            match callLlm messages' w1 with
            | (Err e, w2) => Some (Err e, w2)
            | (Ok modelResponse', w2) =>
                agent_loop fuel' messages' modelResponse' w2
            end
        end
  end.

Definition agent (fuel : nat) (messages : list Message) (w : World)
  : option (result (list Message) * World) :=
  match callLlm messages w with
  | (Err e, w1) => Some (Err e, w1)
  | (Ok modelResponse, w1) => agent_loop fuel messages modelResponse w1
  end.
End Functional.
End Functional.

(** ** complex-graph-auto-trace.ts *)

Module ComplexGraph.
Section ComplexGraph.
Context {N : JsNumber}.

(** The channels of [GraphState]; a channel not yet written is undefined.
    [category] is declared as one of four strings but is filled with
    [parsed.category || "unknown"], any truthy JSON value. *)
Record GraphState := {
  input : string;
  category : jsval;
  confidence : jsval;
  processed : jsval;
  path : jsval;
  response : jsval;
  enrichments : jsval;
  summary : jsval;
  timestamp : jsval;
}.

(** [Promise.all(promises)]: each promise, when it completes, stores its
    value at its own index ([settle]); the array is delivered once every index
    is filled.  [completion] lists the indices in the order of completion. *)
Definition settle {A} (promises : list A) (values : list (option A)) (i : nat)
  : list (option A) :=
  match promises !! i with
  | Some v => <[i := Some v]> values
  | None => values
  end.

Definition Promise_all {A} (promises : list A) (completion : list nat)
  : option (list A) :=
  let values :=
    foldl (settle promises) (replicate (List.length promises) None) completion in
  mapM (fun v => v) values.

(** A plain object: its own properties in the order of their creation, which
    is the order [JSON.stringify] and [Object.keys] follow (keys that are
    array indices, which come first in that order, do not occur here). *)
Definition jsobject := list (string * jsval).

(** [o[k]]. *)
Fixpoint get_property (o : jsobject) (k : string) : option jsval :=
  match o with
  | [] => None
  | (k', v) :: rest => if String.eqb k' k then Some v else get_property rest k
  end.

(** [o[k] = v]: a property that exists keeps its place, a new one comes
    last. *)
Fixpoint set_property (o : jsobject) (k : string) (v : jsval) : jsobject :=
  match o with
  | [] => [(k, v)]
  | (k', v') :: rest =>
      if String.eqb k' k then (k, v) :: rest
      else (k', v') :: set_property rest k v
  end.

(** [Object.assign(target, ...sources)]: the sources are taken in order and
    the properties of each are written to the target in their order, a later
    write of a key overwriting an earlier one. *)
Definition copy_properties (target source : jsobject) : jsobject :=
  foldl (fun o kv => set_property o kv.1 kv.2) target source.

Definition Object_assign (target : jsobject) (sources : list jsobject)
  : jsobject :=
  foldl copy_properties target sources.

(** [Math.random() > 0.5], for the draw [rnd] in [0, 1). *)
Definition above_half (rnd : Q) : bool := negb (Qle_bool rnd (1 # 2)).

(** The three sub-tasks of [enrichDataNode], in the order of the array. *)
Definition sub_tasks (state : GraphState) (rnd : Q) : list jsobject :=
  [ [("sentiment", JStr (if above_half rnd then "positive" else "neutral"))];
    [("complexity",
      JStr (if Nat.ltb 20 (String.length (input state)) then "high" else "low"))];
    [("tags", JArr [JStr "processed"; category state; JStr "v1"])] ].

(** The partial update [{ enrichments: enrichmentData }]. *)
Record EnrichUpdate := { enrichments_update : jsobject }.

(** [rnd] is what [Math.random()] returns in this run and [completion] the
    order in which the sub-tasks complete; [None] when some sub-task never
    completes.  The console lines of [traceEnter], [trace] and [traceExit] are
    left out. *)
Definition enrichDataNode (state : GraphState) (rnd : Q) (completion : list nat)
  : option EnrichUpdate :=
  match Promise_all (sub_tasks state rnd) completion with
  | None => None
  | Some enrichments =>
      let enrichmentData := Object_assign [] enrichments in
      Some {| enrichments_update := enrichmentData |}
  end.

(** The routing function, with the line it writes through [trace]. *)
Definition routeByCategory (state : GraphState) : string * list console_line :=
  let line := [Lit "🔀 ルーティング → "; Val (category state); Lit " パス"] in
  (match category state with
   | JStr c =>
       if String.eqb c "math" then "processMath"
       else if String.eqb c "text" then "processText"
       else if String.eqb c "data" then "processData"
       else "enrichData"
   | _ => "enrichData"
   end, [line]).

(** The edge table of [graph]. *)
Definition graph_edges : list (Edge GraphState) :=
  [ Static START "classifyInput";
    Conditional "classifyInput" (fun s => (routeByCategory s).1)
      (path_list ["processMath"; "processText"; "processData"; "enrichData"]);
    Static "processMath" "enrichData";
    Static "processText" "enrichData";
    Static "processData" "enrichData";
    Static "enrichData" "summarizeResults";
    Static "summarizeResults" END ].
End ComplexGraph.
End ComplexGraph.

(** ** devin-mcp-graph.ts *)

Module DevinMcp.
Section DevinMcp.
Context {N : JsNumber}.

(** The channels the routing functions read; [None] is undefined. *)
Record GraphState := {
  repoName : string;
  userQuestion : option string;
  error : option string;
}.

(** [if (x)] for a string channel: defined and not empty. *)
Definition truthy (x : option string) : bool :=
  match x with
  | Some s => truthy_string s
  | None => false
  end.

Definition shown (x : option string) : jsval :=
  match x with
  | Some s => JStr s
  | None => JUndefined
  end.

Definition checkError (state : GraphState) : string * list console_line :=
  if truthy (error state) then
    ("end", [[Lit "❌ エラー検出: "; Val (shown (error state))]])
  else ("continue", []).

Definition shouldAnswerQuestion (state : GraphState) : string * list console_line :=
  if truthy (error state) then ("skip", [])
  else if (truthy (userQuestion state)
           && Nat.ltb 0 (String.length (trim (default EmptyString (userQuestion state)))))%bool
  then
    ("answer",
     [[Lit "❓ ユーザー質問あり: "; Lit dquote; Val (shown (userQuestion state));
       Lit dquote]])
  else ("skip", [[Lit "ℹ️  ユーザー質問なし - スキップ"]]).

(** The edge table of [graph]. *)
Definition graph_edges : list (Edge GraphState) :=
  [ Static START "fetchWikiStructure";
    Conditional "fetchWikiStructure" (fun s => (checkError s).1)
      [("continue", "fetchWikiContents"); ("end", END)];
    Static "fetchWikiContents" "analyzeInsights";
    Conditional "analyzeInsights" (fun s => (shouldAnswerQuestion s).1)
      [("answer", "answerQuestion"); ("skip", "generateSummary")];
    Static "answerQuestion" "generateSummary";
    Static "generateSummary" END ].
End DevinMcp.
End DevinMcp.

(** ** Vocabulary of the properties *)

Module Props.
Import Calculator.
Section Props.
Context {N : JsNumber}.

(** The latest message is an ai-role message carrying one or more pending
    tool calls. *)
Definition pending (state : MessagesState) : Prop :=
  exists ai tc tcs,
    last (messages state) = Some (AIMessage ai) /\ tool_calls ai = Some (tc :: tcs).

(** The call names a registered tool. *)
Definition registered (tc : ToolCall) : bool :=
  match toolsByName !! name tc with
  | Some _ => true
  | None => false
  end.

(** The call names a registered tool and its arguments pass that tool's
    schema. *)
Definition valid_call (tc : ToolCall) : bool :=
  match toolsByName !! name tc with
  | Some t => validate (schema t) (args tc)
  | None => false
  end.

(** The call names a registered tool and its arguments fail the schema. *)
Definition fails_schema (tc : ToolCall) : bool :=
  match toolsByName !! name tc with
  | Some t => negb (validate (schema t) (args tc))
  | None => false
  end.

(** The world after the bodies of [new] have run. *)
Definition ran (new : list ToolCall) (w : World) : World :=
  {| oracle := oracle w; calls := calls w; sent := sent w;
     invoked := invoked w ++ new |}.

(** The world after the model was sent the transcript of [state]. *)
Definition prompted (state : MessagesState) (w : World) : World :=
  {| oracle := oracle w; calls := S (calls w);
     sent := sent w ++ [SystemMessage SYSTEM_PROMPT :: messages state];
     invoked := invoked w |}.

(** The state after the model's answer [r] was merged. *)
Definition answered (state : MessagesState) (r : AIResponse) : MessagesState :=
  merge_messages state {| messages := [AIMessage r] |}.

(** [k] rounds of tool execution followed by a model call. *)
Fixpoint cycles (k : nat) : list string :=
  match k with
  | O => []
  | S k' => "toolNode" :: "llmCall" :: cycles k'
  end.

Definition count_role (r : string) (l : list Message) : nat :=
  List.length (filter (fun m => _getType m = r) l).

(** The tool message answers the call: it carries the call's id. *)
Definition answers (tc : ToolCall) (m : Message) : Prop :=
  exists content tool, m = ToolMessage content (call_id tc) tool.
End Props.
End Props.

(** ** Concrete runs *)

Module Scenario.
Import Calculator.
Section Scenario.
Local Existing Instance ZNumber.

Definition stub (script : list AIResponse) (n : nat) : result AIResponse :=
  match script !! n with
  | Some r => Ok r
  | None => Err ProviderError
  end.

Definition fresh (script : list AIResponse) : World :=
  {| oracle := stub script; calls := 0; sent := []; invoked := [] |}.

Definition initial : MessagesState :=
  {| messages := [HumanMessage "Add 3 and 4."] |}.

Definition add_3_4 : ToolCall :=
  {| name := "add";
     args := <["a" := JNum 3%Z]> (<["b" := JNum 4%Z]> ∅);
     call_id := "call_1" |}.

Definition asks_add : AIResponse :=
  {| ai_content := EmptyString; tool_calls := Some [add_3_4] |}.

Definition says_7 : AIResponse :=
  {| ai_content := "7"; tool_calls := Some [] |}.

(** A call of [add] whose [a] is a string. *)
Definition add_three_4 : ToolCall :=
  {| name := "add";
     args := <["a" := JStr "three"]> (<["b" := JNum 4%Z]> ∅);
     call_id := "call_2" |}.

Definition asks_bad_add : AIResponse :=
  {| ai_content := EmptyString; tool_calls := Some [add_three_4] |}.

(** A call of a tool that is not in [toolsByName]. *)
Definition subtract_3_4 : ToolCall :=
  {| name := "subtract";
     args := <["a" := JNum 3%Z]> (<["b" := JNum 4%Z]> ∅);
     call_id := "call_3" |}.

Definition asks_subtract : AIResponse :=
  {| ai_content := EmptyString; tool_calls := Some [subtract_3_4] |}.

Definition after (r : AIResponse) : MessagesState :=
  {| messages := [HumanMessage "Add 3 and 4."; AIMessage r] |}.

Definition classified (c : jsval) : ComplexGraph.GraphState :=
  {| ComplexGraph.input := "reverse the word hello";
     ComplexGraph.category := c;
     ComplexGraph.confidence := JUndefined;
     ComplexGraph.processed := JUndefined;
     ComplexGraph.path := JUndefined;
     ComplexGraph.response := JUndefined;
     ComplexGraph.enrichments := JUndefined;
     ComplexGraph.summary := JUndefined;
     ComplexGraph.timestamp := JUndefined |}.

Definition asked (q : option string) (e : option string) : DevinMcp.GraphState :=
  {| DevinMcp.repoName := "facebook/react";
     DevinMcp.userQuestion := q;
     DevinMcp.error := e |}.

(** A graph with a deliberate cycle: its one node counts its executions and
    its routing function always returns to it. *)
Definition spinning : StateGraph nat unit :=
  {| merge := fun _ update => update;
     nodes := [("spin", fun n w => (Ok (S n), w))];
     edges := [Static START "spin";
               Conditional "spin" (fun _ => "spin") (path_list ["spin"; END])] |}.
End Scenario.
End Scenario.

(** ** Transcripts of the tool-calling loop *)

Module Transcript.
Import Calculator Props.
Section Transcript.
Context {N : JsNumber}.

(** The pending calls of an answer. *)
Definition pending_calls (r : AIResponse) : list ToolCall :=
  or_empty (tool_calls r).

(** What [tool.invoke] returns for a call, when it can be executed. *)
Definition observation (tc : ToolCall) : option Message :=
  match toolsByName !! name tc with
  | Some t =>
      if validate (schema t) (args tc) then
        Some (ToolMessage (stringify (func t (args tc))) (call_id tc)
                (tool_name_of t))
      else None
  | None => None
  end.

(** One round of the loop in a transcript: the ai message that asks for
    tools, then the observation of each of its calls, in order. *)
Definition round (r : AIResponse) : list Message :=
  AIMessage r :: omap observation (pending_calls r).

Definition rounds (rs : list AIResponse) : list Message :=
  List.concat (map round rs).

(** The answer asks for tools, and every call can be executed. *)
Definition executable (r : AIResponse) : bool :=
  has_length (tool_calls r) && forallb valid_call (pending_calls r).

(** From its next call on, the model answers [rs], in order, then [final]. *)
Definition scripted (w : World) (rs : list AIResponse) (final : AIResponse) : Prop :=
  (forall i r, rs !! i = Some r -> oracle w (calls w + i) = Ok r)
  /\ oracle w (calls w + List.length rs) = Ok final.

(** The prompts of a run that starts from [msgs] and goes through the rounds
    [rs]: the system prompt, then the transcript as it is at each model
    call. *)
Fixpoint prompts (msgs : list Message) (rs : list AIResponse)
  : list (list Message) :=
  (SystemMessage SYSTEM_PROMPT :: msgs)
  :: match rs with
     | [] => []
     | r :: rs' => prompts (msgs ++ round r) rs'
     end.

(** The world after such a run. *)
Definition after_script (msgs : list Message) (rs : list AIResponse) (w : World)
  : World :=
  {| oracle := oracle w;
     calls := calls w + List.length rs + 1;
     sent := sent w ++ prompts msgs rs;
     invoked := invoked w ++ List.concat (map pending_calls rs) |}.
End Transcript.
End Transcript.

(** ** The nodes of the two larger graphs *)

Module Wiring.
Section Wiring.
Context {N : JsNumber}.


(** The names under which devin-mcp-graph.ts adds its nodes. *)
Definition devin_nodes : list string :=
  ["fetchWikiStructure"; "fetchWikiContents"; "answerQuestion";
   "analyzeInsights"; "generateSummary"].

(** Every node of [names] is in the graph and returns an update on every
    state. *)
Definition all_succeed {St W} (g : StateGraph St W) (names : list string) : Prop :=
  forall n, n ∈ names ->
    exists node, assoc n (nodes g) = Some node
                 /\ forall s w, exists update w', node s w = (Ok update, w').


(** The branch after [analyzeInsights]. *)
Definition devin_branch (label : string) : list string :=
  if String.eqb label "answer" then ["answerQuestion"] else [].

(** Graphs with the wiring of the sources and nodes that change nothing, for
    running the walks. *)
Definition idle {St} (names : list string)
  : list (string * (St -> unit -> result St * unit)) :=
  map (fun n => (n, fun s w => (Ok s, w))) names.


Definition devin_idle : StateGraph DevinMcp.GraphState unit :=
  {| merge := fun _ update => update;
     nodes := idle devin_nodes;
     edges := DevinMcp.graph_edges |}.
End Wiring.
End Wiring.

(** ** devin-mcp-graph.ts: the topic list of a wiki structure *)

Module Topics.

Definition is_digit (c : ascii) : bool :=
  let n := nat_of_ascii c in (Nat.leb 48 n && Nat.leb n 57)%bool.

(** LineTerminator code units below 256: line feed and carriage return. *)
Definition is_line_terminator (c : ascii) : bool :=
  let n := nat_of_ascii c in (Nat.eqb n 10 || Nat.eqb n 13)%bool.

(** The character classes of the pattern: [\s], [[\d.]], [.] and a literal
    character. *)
Inductive char_class :=
| Space
| DigitOrDot
| AnyChar
| Literal (c : ascii).

Definition matches (k : char_class) (c : ascii) : bool :=
  match k with
  | Space => is_white_space c
  | DigitOrDot => (is_digit c || Ascii.eqb c ".")%bool
  | AnyChar => negb (is_line_terminator c)
  | Literal c' => Ascii.eqb c c'
  end.

Inductive quantifier :=
| Once
| Star
| Plus.

Definition at_least (q : quantifier) : nat :=
  match q with
  | Star => 0
  | Once | Plus => 1
  end.

Definition at_most (q : quantifier) : option nat :=
  match q with
  | Once => Some 1
  | Star | Plus => None
  end.

(** A quantified character class, inside the capturing group or not. *)
Record atom := {
  class : char_class;
  quant : quantifier;
  captured : bool;
}.

Definition may_take (max : option nat) : bool :=
  match max with
  | Some O => false
  | _ => true
  end.

(** A greedy quantifier with backtracking: take one more character when it
    is in the class and the bound allows it, and go on; when the rest of the
    pattern fails from there, or no character can be taken, try the rest of
    the pattern here, provided enough characters were taken.  [taken] holds
    what the quantifier has consumed, [k] is the rest of the pattern. *)
Fixpoint greedy {A} (p : ascii -> bool) (min : nat) (max : option nat)
  (s taken : string) (k : string -> string -> option A) : option A :=
  let here := if Nat.eqb min 0 then k taken s else None in
  match s with
  | EmptyString => here
  | String c rest =>
      if (p c && may_take max)%bool then
        match greedy p (Nat.pred min) (Nat.pred <$> max) rest
                (String.append taken (String c EmptyString)) k with
        | Some r => Some r
        | None => here
        end
      else here
  end.

(** A sequence of atoms between [^] and [$]: the match starts at the first
    character and must end at the end of the string.  The result is the text
    of the group. *)
Fixpoint exec (atoms : list atom) (s : string) (group : option string)
  : option (option string) :=
  match atoms with
  | [] =>
      match s with
      | EmptyString => Some group
      | String _ _ => None
      end
  | a :: rest =>
      greedy (matches (class a)) (at_least (quant a)) (at_most (quant a))
        s EmptyString
        (fun taken s' => exec rest s' (if captured a then Some taken else group))
  end.

(** [/^\s*-\s+[\d.]+\s+(.+)$/] *)
Definition TOPIC_LINE : list atom :=
  [ {| class := Space; quant := Star; captured := false |};
    {| class := Literal "-"; quant := Once; captured := false |};
    {| class := Space; quant := Plus; captured := false |};
    {| class := DigitOrDot; quant := Plus; captured := false |};
    {| class := Space; quant := Plus; captured := false |};
    {| class := AnyChar; quant := Plus; captured := true |} ].

(** [line.match(TOPIC_LINE)], as the text of group 1 when the line matches. *)
Definition line_match (line : string) : option string :=
  match exec TOPIC_LINE line None with
  | Some (Some topic) => Some topic
  | _ => None
  end.

Definition LF : ascii := ascii_of_nat 10.
Definition CR : ascii := ascii_of_nat 13.

(** [text.split(sep)] for a one-character separator; [cur] is the piece
    being read. *)
Fixpoint split_on (sep : ascii) (s cur : string) : list string :=
  match s with
  | EmptyString => [cur]
  | String c rest =>
      if Ascii.eqb c sep then cur :: split_on sep rest EmptyString
      else split_on sep rest (String.append cur (String c EmptyString))
  end.

Definition parseTopicList (text : string) : list string :=
  let lines := split_on LF text EmptyString in
  omap (fun line =>
          match line_match line with
          | Some topic => Some (trim topic)
          | None => None
          end) lines.

(** *** Vocabulary *)

Fixpoint all_chars (p : ascii -> bool) (s : string) : bool :=
  match s with
  | EmptyString => true
  | String c rest => (p c && all_chars p rest)%bool
  end.



(** An entry of an outline: its depth, its number (like 1.2) and its title. *)
Record entry := {
  depth : nat;
  number : string;
  title : string;
}.




(** [line] is a numbered item whose text is [topic]: optional white space, a
    dash, white space, a run of digits and dots, white space, then the text,
    which is not empty and has no line terminator. *)
Definition numbered_item (line topic : string) : Prop :=
  exists indent gap1 num gap2,
    line = String.append indent
             (String.append "-"
                (String.append gap1
                   (String.append num (String.append gap2 topic))))
    /\ all_chars is_white_space indent = true
    /\ all_chars is_white_space gap1 = true /\ gap1 <> EmptyString
    /\ all_chars (matches DigitOrDot) num = true /\ num <> EmptyString
    /\ all_chars is_white_space gap2 = true /\ gap2 <> EmptyString
    /\ all_chars (matches AnyChar) topic = true /\ topic <> EmptyString.

Definition CRLF : string := String CR (String LF EmptyString).
End Topics.

(** ** complex-graph-auto-trace.ts: the body of the processText tool *)

Module TextTool.
Section TextTool.

(** [toUpperCase] and [toLowerCase] follow the Unicode case mappings, which
    are kept abstract. *)
Variables toUpperCase toLowerCase : string -> string.

(** [text.split("").reverse().join("")] reverses the code units;
    [`Length: ${text.length}`] prints their number in decimal. *)
Definition processText (text operation : string) : string :=
  if String.eqb operation "uppercase" then toUpperCase text
  else if String.eqb operation "lowercase" then toLowerCase text
  else if String.eqb operation "reverse" then String.rev text
  else if String.eqb operation "length" then
    String.append "Length: " (pretty (String.length text))
  else text.
End TextTool.
End TextTool.

(** * Properties *)

Section ToolLoop.
Context {N : JsNumber}.
Import Calculator Graph Props.

Lemma last_snoc_inv (l : list Message) (m : Message) :
  last l = Some m -> exists l', l = l' ++ [m].
Proof.
  intros Hl. destruct (last_Some l m) as [Hex _].
  destruct (Hex Hl) as [l' ->]. by exists l'.
Qed.

Lemma getType_ai (m : Message) :
  String.eqb (_getType m) "ai" = true <-> exists ai, m = AIMessage ai.
Proof.
  split.
  - destruct m; simpl; try discriminate. intros _. by eexists.
  - by intros [ai ->].
Qed.

Lemma has_length_true {A} (x : option (list A)) :
  has_length x = true <-> exists a l, x = Some (a :: l).
Proof.
  split.
  - destruct x as [[|a l]|]; simpl; try discriminate. intros _. by exists a, l.
  - by intros (a & l & ->).
Qed.

Lemma shouldContinue_cases (state : MessagesState) :
  shouldContinue state = "toolNode" \/ shouldContinue state = END.
Proof.
  unfold shouldContinue.
  destruct (last (messages state)) as [m|]; [|by right].
  destruct (negb _); [by right|].
  destruct (has_length _); [by left|by right].
Qed.

Lemma shouldContinue_toolNode (state : MessagesState) :
  shouldContinue state = "toolNode" <-> pending state.
Proof.
  unfold shouldContinue, pending. split.
  - destruct (last (messages state)) as [m|] eqn:Hlast; [|discriminate].
    destruct (String.eqb (_getType m) "ai") eqn:Hty; simpl; [|discriminate].
    apply getType_ai in Hty as [ai ->]. simpl.
    destruct (has_length (tool_calls ai)) eqn:Hlen; [|discriminate].
    apply has_length_true in Hlen as (tc & tcs & Hcalls). intros _.
    by exists ai, tc, tcs.
  - intros (ai & tc & tcs & -> & Hcalls). simpl. by rewrite Hcalls.
Qed.

(** C1. After the model-call node the routing function returns the tool node
    exactly when the latest message is an ai-role message carrying one or more
    pending tool calls, and [END] in every other case; the only outgoing edge
    of the tool node is the static edge back to the model-call node, which is
    where the walk goes after it, whatever the state. *)
Theorem routing_of_tool_loop (state : MessagesState) :
  (shouldContinue state = "toolNode" <-> pending state)
  /\ (shouldContinue state = "toolNode" \/ shouldContinue state = END)
  /\ "toolNode" <> END
  /\ outgoing (edges agent) "toolNode" = [Static "toolNode" "llmCall"]
  /\ resolve (edges agent) "toolNode" state = Ok "llmCall"
  /\ resolve (edges agent) "llmCall" state = Ok (shouldContinue state).
Proof.
  split; [apply shouldContinue_toolNode|].
  split; [apply shouldContinue_cases|].
  split; [discriminate|].
  split; [reflexivity|].
  split; [reflexivity|].
  destruct (shouldContinue_cases state) as [H|H];
    unfold resolve; simpl; rewrite H; reflexivity.
Qed.

(** C9. On a state whose message list is empty or whose last message is not
    ai-role, the tool-execution node succeeds with the empty update and leaves
    the world as it was, merging that update leaves the state unchanged, and
    the routing function returns [END]. *)
Theorem toolNode_frame (state : MessagesState) (w : World) :
  (last (messages state) = None
   \/ exists m, last (messages state) = Some m /\ _getType m <> "ai") ->
  toolNode state w = (Ok {| messages := [] |}, w)
  /\ merge_messages state {| messages := [] |} = state
  /\ shouldContinue state = END.
Proof.
  intros Hlast. unfold toolNode, shouldContinue, merge_messages, addMessages.
  rewrite app_nil_r. destruct state as [msgs]. simpl in *.
  destruct Hlast as [-> | (m & -> & Hty)]; [done|].
  apply String.eqb_neq in Hty. by rewrite Hty.
Qed.
End ToolLoop.

Lemma toolNode_frame_witness :
  Graph.toolNode Scenario.initial (Scenario.fresh [])
    = (Ok {| messages := [] |}, Scenario.fresh [])
  /\ merge_messages Scenario.initial {| messages := [] |} = Scenario.initial
  /\ Graph.shouldContinue Scenario.initial = END.
Proof.
  apply (toolNode_frame Scenario.initial (Scenario.fresh [])).
  right. exists (HumanMessage "Add 3 and 4."). split; [reflexivity|discriminate].
Defined.

(** ** The tool-execution node *)

Section ToolExec.
Context {N : JsNumber}.
Import Calculator Graph Props.

Lemma ran_nil (w : World) : ran [] w = w.
Proof. destruct w. unfold ran. simpl. by rewrite app_nil_r. Qed.

Lemma ran_app (l1 l2 : list ToolCall) (w : World) :
  ran l2 (ran l1 w) = ran (l1 ++ l2) w.
Proof. unfold ran. simpl. by rewrite app_assoc. Qed.

Lemma invoke_tool_valid (tc : ToolCall) (w : World) :
  valid_call tc = true ->
  exists m, invoke_tool (toolsByName !! name tc) tc w = (Ok m, ran [tc] w)
            /\ answers tc m.
Proof.
  unfold valid_call, invoke_tool, Tool_invoke.
  destruct (toolsByName !! name tc) as [t|]; [|discriminate].
  intros ->. eexists. split; [reflexivity|]. by eexists _, _.
Qed.

Lemma invoke_tool_invalid (tc : ToolCall) (w : World) :
  valid_call tc = false ->
  invoke_tool (toolsByName !! name tc) tc w
  = (Err (if registered tc then ValidationError else TypeError), w).
Proof.
  unfold valid_call, registered, invoke_tool, Tool_invoke, throw.
  destruct (toolsByName !! name tc) as [t|]; [|done]. by intros ->.
Qed.

Lemma for_toolCalls_valid (toolCalls : list ToolCall) :
  forall (acc : list Message) (w : World),
    forallb valid_call toolCalls = true ->
    exists msgs,
      for_toolCalls toolCalls acc w = (Ok (acc ++ msgs), ran toolCalls w)
      /\ Forall2 answers toolCalls msgs.
Proof.
  induction toolCalls as [|tc rest IH]; intros acc w Hall.
  - exists []. rewrite app_nil_r, ran_nil. by split; [|constructor].
  - simpl in Hall. apply andb_true_iff in Hall as [Htc Hrest].
    destruct (invoke_tool_valid tc w Htc) as (m & Hm & Hans).
    destruct (IH (acc ++ [m]) (ran [tc] w) Hrest) as (msgs & Hmsgs & Hall2).
    exists (m :: msgs). split; [|by constructor].
    cbn [for_toolCalls]. unfold bind at 1. rewrite Hm, Hmsgs.
    by rewrite <- app_assoc, ran_app.
Qed.

Lemma for_toolCalls_stops (pre : list ToolCall) :
  forall (tc : ToolCall) (post : list ToolCall) (acc : list Message) (w : World),
    forallb valid_call pre = true ->
    valid_call tc = false ->
    for_toolCalls (pre ++ tc :: post) acc w
    = (Err (if registered tc then ValidationError else TypeError), ran pre w).
Proof.
  induction pre as [|p pre IH]; intros tc post acc w Hpre Htc.
  - simpl. unfold bind. by rewrite (invoke_tool_invalid tc w Htc), ran_nil.
  - simpl in Hpre. apply andb_true_iff in Hpre as [Hp Hpre].
    destruct (invoke_tool_valid p w Hp) as (m & Hm & _).
    cbn [app for_toolCalls]. unfold bind at 1. rewrite Hm.
    rewrite (IH tc post _ _ Hpre Htc). by rewrite ran_app.
Qed.

(** A list either passes a test throughout or splits at the first element
    that fails it. *)
Lemma first_failure {A} (f : A -> bool) (l : list A) :
  forallb f l = true
  \/ exists pre x post, l = pre ++ x :: post /\ forallb f pre = true /\ f x = false.
Proof.
  induction l as [|a l IH]; [by left|].
  destruct (f a) eqn:Ha.
  - destruct IH as [IH | (pre & x & post & -> & Hpre & Hx)].
    + left. simpl. by rewrite Ha.
    + right. exists (a :: pre), x, post. simpl. by rewrite Ha.
  - right. by exists [], a, l.
Qed.

Lemma toolNode_ai (state : MessagesState) (ai : AIResponse) (w : World) :
  last (messages state) = Some (AIMessage ai) ->
  toolNode state w
  = match for_toolCalls (or_empty (tool_calls ai)) [] w with
    | (Ok result, w') => (Ok {| messages := result |}, w')
    | (Err e, w') => (Err e, w')
    end.
Proof. intros Hlast. unfold toolNode. rewrite Hlast. reflexivity. Qed.

Lemma toolNode_valid (state : MessagesState) (ai : AIResponse) (w : World) :
  last (messages state) = Some (AIMessage ai) ->
  forallb valid_call (or_empty (tool_calls ai)) = true ->
  exists msgs,
    toolNode state w
    = (Ok {| messages := msgs |}, ran (or_empty (tool_calls ai)) w)
    /\ Forall2 answers (or_empty (tool_calls ai)) msgs.
Proof.
  intros Hlast Hall. rewrite (toolNode_ai _ _ _ Hlast).
  destruct (for_toolCalls_valid _ [] w Hall) as (msgs & -> & Hans).
  by exists msgs.
Qed.

Lemma toolNode_stops (state : MessagesState) (ai : AIResponse) (w : World)
  (pre : list ToolCall) (tc : ToolCall) (post : list ToolCall) :
  last (messages state) = Some (AIMessage ai) ->
  or_empty (tool_calls ai) = pre ++ tc :: post ->
  forallb valid_call pre = true ->
  valid_call tc = false ->
  toolNode state w
  = (Err (if registered tc then ValidationError else TypeError), ran pre w).
Proof.
  intros Hlast Hcalls Hpre Htc. rewrite (toolNode_ai _ _ _ Hlast), Hcalls.
  by rewrite (for_toolCalls_stops pre tc post [] w Hpre Htc).
Qed.

(** Whatever the node does, the bodies it ran are those of a prefix of the
    pending calls, each on arguments that pass the schema. *)
Lemma toolNode_result (state : MessagesState) (ai : AIResponse) (w : World) :
  last (messages state) = Some (AIMessage ai) ->
  (exists msgs,
      toolNode state w
      = (Ok {| messages := msgs |}, ran (or_empty (tool_calls ai)) w)
      /\ forallb valid_call (or_empty (tool_calls ai)) = true)
  \/ (exists pre tc post,
        or_empty (tool_calls ai) = pre ++ tc :: post
        /\ forallb valid_call pre = true /\ valid_call tc = false
        /\ toolNode state w
           = (Err (if registered tc then ValidationError else TypeError),
              ran pre w)).
Proof.
  intros Hlast.
  destruct (first_failure valid_call (or_empty (tool_calls ai)))
    as [Hall | (pre & tc & post & Hcalls & Hpre & Htc)].
  - left. destruct (toolNode_valid state ai w Hlast Hall) as (msgs & Hrun & _).
    by exists msgs.
  - right. exists pre, tc, post. repeat split; try done.
    by apply toolNode_stops with ai post.
Qed.
End ToolExec.

(** ** Walks of the agent graph *)

Section AgentWalk.
Context {N : JsNumber}.
Import Calculator Graph Props.

Lemma walk_S {St W} (g : StateGraph St W) (limit : nat) (cur : string) (s : St) (w : W) :
  walk g (S limit) cur s w
  = match assoc cur (nodes g) with
    | None => stopped (Err ConfigurationError) [] [] w
    | Some node =>
        match node s w with
        | (Err e, w') => stopped (Err e) [cur] [] w'
        | (Ok update, w') =>
            let s' := merge g s update in
            match resolve (edges g) cur s' with
            | Err e => stopped (Err e) [cur] [s'] w'
            | Ok next =>
                if String.eqb next END then stopped (Ok s') [cur] [s'] w'
                else
                  let r := walk g limit next s' w' in
                  stopped (outcome r) (cur :: executed r)
                    (s' :: snapshots r) (world r)
            end
        end
    end.
Proof. reflexivity. Qed.

Lemma invoke_agent (limit : nat) (s : MessagesState) (w : World) :
  invoke agent limit s w = walk agent limit "llmCall" s w.
Proof. reflexivity. Qed.

Lemma resolve_llmCall (state : MessagesState) :
  resolve (edges agent) "llmCall" state = Ok (shouldContinue state).
Proof.
  destruct (shouldContinue_cases state) as [H|H];
    unfold resolve; simpl; rewrite H; reflexivity.
Qed.

Lemma shouldContinue_answered (state : MessagesState) (r : AIResponse) :
  shouldContinue (answered state r)
  = if has_length (tool_calls r) then "toolNode" else END.
Proof.
  unfold shouldContinue, answered, merge_messages, addMessages. simpl.
  by rewrite last_snoc.
Qed.

Lemma llmCall_run (state : MessagesState) (w : World) :
  llmCall state w
  = match oracle w (calls w) with
    | Ok r => (Ok {| messages := [AIMessage r] |}, prompted state w)
    | Err e => (Err e, prompted state w)
    end.
Proof.
  unfold llmCall, bind, model_invoke, ret, prompted.
  by destruct (oracle w (calls w)).
Qed.

Lemma walk_llmCall_fail (limit : nat) (s : MessagesState) (w : World) (e : error) :
  oracle w (calls w) = Err e ->
  walk agent (S limit) "llmCall" s w = stopped (Err e) ["llmCall"] [] (prompted s w).
Proof.
  intros Ho. rewrite walk_S.
  change (assoc "llmCall" (nodes agent)) with (Some llmCall).
  cbv beta iota. by rewrite llmCall_run, Ho.
Qed.

Lemma walk_llmCall_stop (limit : nat) (s : MessagesState) (w : World) (r : AIResponse) :
  oracle w (calls w) = Ok r ->
  has_length (tool_calls r) = false ->
  walk agent (S limit) "llmCall" s w
  = stopped (Ok (answered s r)) ["llmCall"] [answered s r] (prompted s w).
Proof.
  intros Ho Hlen. rewrite walk_S.
  change (assoc "llmCall" (nodes agent)) with (Some llmCall).
  cbv beta iota. rewrite llmCall_run, Ho. cbv zeta.
  change (merge agent s {| messages := [AIMessage r] |}) with (answered s r).
  by rewrite resolve_llmCall, shouldContinue_answered, Hlen.
Qed.

Lemma walk_llmCall_go (limit : nat) (s : MessagesState) (w : World) (r : AIResponse) :
  oracle w (calls w) = Ok r ->
  has_length (tool_calls r) = true ->
  walk agent (S limit) "llmCall" s w
  = let run := walk agent limit "toolNode" (answered s r) (prompted s w) in
    stopped (outcome run) ("llmCall" :: executed run)
      (answered s r :: snapshots run) (world run).
Proof.
  intros Ho Hlen. rewrite walk_S.
  change (assoc "llmCall" (nodes agent)) with (Some llmCall).
  cbv beta iota. rewrite llmCall_run, Ho. cbv zeta.
  change (merge agent s {| messages := [AIMessage r] |}) with (answered s r).
  by rewrite resolve_llmCall, shouldContinue_answered, Hlen.
Qed.

Lemma walk_toolNode_fail (limit : nat) (s : MessagesState) (w w' : World) (e : error) :
  toolNode s w = (Err e, w') ->
  walk agent (S limit) "toolNode" s w = stopped (Err e) ["toolNode"] [] w'.
Proof.
  intros Hnode. rewrite walk_S.
  change (assoc "toolNode" (nodes agent)) with (Some toolNode).
  cbv beta iota. by rewrite Hnode.
Qed.

Lemma walk_toolNode_ok (limit : nat) (s u : MessagesState) (w w' : World) :
  toolNode s w = (Ok u, w') ->
  walk agent (S limit) "toolNode" s w
  = let run := walk agent limit "llmCall" (merge_messages s u) w' in
    stopped (outcome run) ("toolNode" :: executed run)
      (merge_messages s u :: snapshots run) (world run).
Proof.
  intros Hnode. rewrite walk_S.
  change (assoc "toolNode" (nodes agent)) with (Some toolNode).
  cbv beta iota. by rewrite Hnode.
Qed.
End AgentWalk.

(** ** The concrete scenario and the length of a terminating walk *)

Section Termination.
Context {N : JsNumber}.
Import Calculator Graph Props.

Lemma lookup_add : toolsByName !! "add" = Some add.
Proof. reflexivity. Qed.

Lemma add_call_valid (tc : ToolCall) (x y : num) :
  name tc = "add" ->
  args tc !! "a" = Some (JNum x) ->
  args tc !! "b" = Some (JNum y) ->
  valid_call tc = true.
Proof.
  intros Hname Ha Hb. unfold valid_call. rewrite Hname, lookup_add.
  unfold validate. simpl. by rewrite Ha, Hb.
Qed.

Lemma add_call_runs (tc : ToolCall) (x y : num) (w : World) :
  name tc = "add" ->
  args tc !! "a" = Some (JNum x) ->
  args tc !! "b" = Some (JNum y) ->
  invoke_tool (toolsByName !! name tc) tc w
  = (Ok (ToolMessage (num_show (num_add x y)) (call_id tc) "add"), ran [tc] w).
Proof.
  intros Hname Ha Hb. rewrite Hname, lookup_add.
  unfold invoke_tool, Tool_invoke, validate. simpl.
  rewrite Ha, Hb. simpl. unfold on_a_b. by rewrite Ha, Hb.
Qed.

Lemma toolNode_answers (state : MessagesState) (ai : AIResponse)
  (w w' : World) (u : MessagesState) :
  last (messages state) = Some (AIMessage ai) ->
  toolNode state w = (Ok u, w') ->
  Forall2 answers (or_empty (tool_calls ai)) (messages u).
Proof.
  intros Hlast Hrun.
  destruct (toolNode_result state ai w Hlast)
    as [(msgs & Hok & Hall) | (pre & tc & post & _ & _ & _ & Hfail)].
  - destruct (toolNode_valid state ai w Hlast Hall) as (msgs' & Hok' & Hans).
    rewrite Hrun in Hok'. by injection Hok' as -> _.
  - rewrite Hrun in Hfail. discriminate.
Qed.

(** C3. From the state holding the one human message "Add 3 and 4.", with a
    model that first answers with a single pending call [add(a=3, b=4)] and
    then with the content "7" and no tool call, the add tool returning 7, the
    walk ends with the transcript human, ai(tool call), tool("7"), ai("7"): four
    messages, the tool message carrying the id of the call.  In general the
    tool node appends one tool-role message per pending call, each carrying
    the id of its call, in the order of the calls. *)
Theorem add_3_and_4 (three four seven : num) (tc : ToolCall)
  (first final : AIResponse) (w : World) (limit : nat) :
  num_add three four = seven ->
  num_show seven = "7" ->
  name tc = "add" ->
  args tc !! "a" = Some (JNum three) ->
  args tc !! "b" = Some (JNum four) ->
  tool_calls first = Some [tc] ->
  ai_content final = "7" ->
  has_length (tool_calls final) = false ->
  oracle w (calls w) = Ok first ->
  oracle w (S (calls w)) = Ok final ->
  3 <= limit ->
  let run := invoke agent limit {| messages := [HumanMessage "Add 3 and 4."] |} w in
  (outcome run
   = Ok {| messages := [HumanMessage "Add 3 and 4."; AIMessage first;
                        ToolMessage "7" (call_id tc) "add"; AIMessage final] |}
   /\ executed run = ["llmCall"; "toolNode"; "llmCall"]
   /\ invoked (world run) = invoked w ++ [tc])
  /\ (forall (state : MessagesState) (ai : AIResponse) (w0 w1 : World)
        (u : MessagesState),
         last (messages state) = Some (AIMessage ai) ->
         toolNode state w0 = (Ok u, w1) ->
         Forall2 answers (or_empty (tool_calls ai)) (messages u)).
Proof.
  intros Hsum Hshow Hname Ha Hb Hfirst Hcontent Hfinal Ho1 Ho2 Hlimit run.
  split; [|apply toolNode_answers].
  subst run. rewrite invoke_agent.
  destruct limit as [|[|[|limit]]]; [lia..|].
  set (s0 := {| messages := [HumanMessage "Add 3 and 4."] |}).
  rewrite (walk_llmCall_go _ s0 w first Ho1) by (by rewrite Hfirst).
  assert (toolNode (answered s0 first) (prompted s0 w)
          = (Ok {| messages := [ToolMessage "7" (call_id tc) "add"] |},
             ran [tc] (prompted s0 w))) as Hnode.
  { rewrite (toolNode_ai _ first) by reflexivity.
    rewrite Hfirst. cbn [or_empty for_toolCalls]. unfold bind.
    rewrite (add_call_runs tc three four _ Hname Ha Hb).
    by rewrite Hsum, Hshow. }
  cbv zeta. rewrite (walk_toolNode_ok _ _ _ _ _ Hnode). cbv zeta.
  rewrite (walk_llmCall_stop _ _ _ final) by done.
  repeat split.
Qed.

Lemma count_role_cons (r : string) (m : Message) (l : list Message) :
  count_role r (m :: l)
  = (if decide (_getType m = r) then 1 else 0) + count_role r l.
Proof.
  unfold count_role. rewrite filter_cons. by destruct (decide _).
Qed.

(** From the model-call node, [k] answers with one valid call each and then
    an answer without calls: [2k+1] nodes run and [2k+1] messages are
    appended. *)
Lemma walk_rounds (k : nat) :
  forall (limit : nat) (s : MessagesState) (w : World),
    2 * k + 1 <= limit ->
    (forall i, i < k ->
       exists r tc, oracle w (calls w + i) = Ok r
                    /\ tool_calls r = Some [tc] /\ valid_call tc = true) ->
    (exists r, oracle w (calls w + k) = Ok r /\ has_length (tool_calls r) = false) ->
    exists appended,
      let run := walk agent limit "llmCall" s w in
      outcome run = Ok {| messages := messages s ++ appended |}
      /\ executed run = "llmCall" :: cycles k
      /\ List.length (snapshots run) = 2 * k + 1
      /\ calls (world run) = calls w + k + 1
      /\ List.length appended = 2 * k + 1
      /\ count_role "ai" appended = k + 1
      /\ count_role "tool" appended = k.
Proof.
  induction k as [|k IH]; intros limit s w Hlimit Hcalls Hlast.
  - destruct Hlast as (r & Ho & Hlen). rewrite Nat.add_0_r in Ho.
    destruct limit as [|limit]; [lia|].
    exists [AIMessage r]. cbv zeta.
    rewrite (walk_llmCall_stop _ _ _ r Ho Hlen). simpl.
    repeat split; lia.
  - destruct (Hcalls 0 ltac:(lia)) as (r & tc & Ho & Hr & Htc).
    rewrite Nat.add_0_r in Ho.
    destruct limit as [|[|limit]]; [lia..|].
    assert (last (messages (answered s r)) = Some (AIMessage r)) as Hlast_r.
    { unfold answered, merge_messages, addMessages. simpl. apply last_snoc. }
    destruct (toolNode_valid (answered s r) r (prompted s w) Hlast_r)
      as (msgs & Hnode & Hans).
    { rewrite Hr. simpl. by rewrite Htc. }
    rewrite Hr in Hans, Hnode. simpl in Hans, Hnode.
    apply Forall2_cons_inv_l in Hans as (m & rest & Hm & Hrest & ->).
    apply Forall2_nil_inv_l in Hrest as ->.
    destruct Hm as (content & tool & ->).
    set (u := {| messages := [ToolMessage content (call_id tc) tool] |}) in *.
    destruct (IH limit (merge_messages (answered s r) u)
                (ran [tc] (prompted s w))) as (appended & Happ); [lia| | |].
    { intros i Hi. destruct (Hcalls (S i) ltac:(lia)) as (r' & tc' & Ho' & H').
      exists r', tc'. split; [|done]. simpl.
      by replace (S (calls w + i)) with (calls w + S i) by lia. }
    { destruct Hlast as (r' & Ho' & H'). exists r'. split; [|done]. simpl.
      by replace (S (calls w + k)) with (calls w + S k) by lia. }
    cbv zeta in Happ.
    destruct Happ as (Hout & Hex & Hsnap & Hcount & Hlen & Hai & Htool).
    exists (AIMessage r :: ToolMessage content (call_id tc) tool :: appended).
    cbv zeta.
    rewrite (walk_llmCall_go _ _ _ r Ho) by (by rewrite Hr).
    cbv zeta. rewrite (walk_toolNode_ok _ _ _ _ _ Hnode). cbv zeta.
    unfold stopped. cbn [outcome executed snapshots world List.length cycles].
    rewrite Hout, Hex, Hsnap, Hcount.
    rewrite !count_role_cons, Hai, Htool.
    cbn [_getType calls ran prompted].
    repeat split; try (simpl; lia).
    unfold answered, merge_messages, addMessages. cbn [messages].
    by rewrite <- !app_assoc.
Qed.

(** C2, amended. If the model answers [k] times with an ai message carrying
    exactly one tool call (a schema-valid call of a registered tool) and then
    with an ai message without tool calls, and the step limit admits [2k+1]
    node executions, the walk of the graph agent ends in success after the
    first model call and exactly [k] cycles of tool execution and model call,
    and has appended [2k+1] messages to the initial transcript: [k] ai
    messages with a tool call, [k] tool results and the final ai message. *)
Theorem tool_loop_terminates (k limit : nat) (s : MessagesState) (w : World) :
  2 * k + 1 <= limit ->
  (forall i, i < k ->
     exists r tc, oracle w (calls w + i) = Ok r
                  /\ tool_calls r = Some [tc] /\ valid_call tc = true) ->
  (exists r, oracle w (calls w + k) = Ok r /\ has_length (tool_calls r) = false) ->
  exists appended,
    let run := invoke agent limit s w in
    outcome run = Ok {| messages := messages s ++ appended |}
    /\ executed run = "llmCall" :: cycles k
    /\ calls (world run) = calls w + k + 1
    /\ List.length appended = 2 * k + 1
    /\ count_role "ai" appended = k + 1
    /\ count_role "tool" appended = k.
Proof.
  intros Hlimit Hcalls Hlast.
  destruct (walk_rounds k limit s w Hlimit Hcalls Hlast) as (appended & H).
  exists appended. cbv zeta in *. rewrite invoke_agent.
  destruct H as (? & ? & _ & ? & ? & ? & ?). done.
Qed.
End Termination.

Lemma add_3_and_4_witness :
  let run := invoke Graph.agent 25 Scenario.initial
               (Scenario.fresh [Scenario.asks_add; Scenario.says_7]) in
  outcome run
  = Ok {| messages := [HumanMessage "Add 3 and 4."; AIMessage Scenario.asks_add;
                       ToolMessage "7" "call_1" "add"; AIMessage Scenario.says_7] |}
  /\ executed run = ["llmCall"; "toolNode"; "llmCall"]
  /\ invoked (world run) = [Scenario.add_3_4].
Proof.
  refine (proj1 (add_3_and_4 (N := ZNumber) 3%Z 4%Z 7%Z Scenario.add_3_4
                   Scenario.asks_add Scenario.says_7
                   (Scenario.fresh [Scenario.asks_add; Scenario.says_7]) 25
                   _ _ _ _ _ _ _ _ _ _ _)); [reflexivity..|lia].
Defined.

Lemma tool_loop_terminates_witness :
  exists appended,
    let run := invoke Graph.agent 25 Scenario.initial
                 (Scenario.fresh [Scenario.asks_add; Scenario.says_7]) in
    outcome run = Ok {| messages := messages Scenario.initial ++ appended |}
    /\ executed run = "llmCall" :: Props.cycles 1
    /\ calls (world run) = 0 + 1 + 1
    /\ List.length appended = 2 * 1 + 1
    /\ Props.count_role "ai" appended = 1 + 1
    /\ Props.count_role "tool" appended = 1.
Proof.
  apply (tool_loop_terminates (N := ZNumber) 1 25 Scenario.initial
           (Scenario.fresh [Scenario.asks_add; Scenario.says_7])).
  - lia.
  - intros i Hi. assert (i = 0) as -> by lia.
    exists Scenario.asks_add, Scenario.add_3_4. repeat split; reflexivity.
  - exists Scenario.says_7. split; reflexivity.
Defined.

(** C2, as stated, fails: with one tool-call answer and then a plain answer
    ([k = 1]) the walk appends 3 messages to the initial one, not
    [1 + 2k + 1 = 4]. *)
Lemma claimed_count_fails :
  let w := Scenario.fresh [Scenario.asks_add; Scenario.says_7] in
  let run := invoke Graph.agent 25 Scenario.initial w in
  let final :=
    {| messages := messages Scenario.initial
                   ++ [AIMessage Scenario.asks_add;
                       ToolMessage "7" "call_1" "add";
                       AIMessage Scenario.says_7] |} in
  oracle w 0 = Ok Scenario.asks_add
  /\ tool_calls Scenario.asks_add = Some [Scenario.add_3_4]
  /\ oracle w 1 = Ok Scenario.says_7
  /\ has_length (tool_calls Scenario.says_7) = false
  /\ outcome run = Ok final
  /\ List.length (messages final) = List.length (messages Scenario.initial) + 3
  /\ List.length (messages final)
     <> List.length (messages Scenario.initial) + (1 + 2 * 1 + 1).
Proof.
  cbv zeta. do 4 (split; [reflexivity|]).
  split; [vm_compute; reflexivity|]. split; [reflexivity|].
  simpl. lia.
Qed.

(** ** Calls that cannot be executed *)

Section Failures.
Context {N : JsNumber}.
Import Calculator Graph Props.

Lemma fails_schema_invalid (tc : ToolCall) :
  fails_schema tc = true -> valid_call tc = false /\ registered tc = true.
Proof.
  unfold fails_schema, valid_call, registered.
  destruct (toolsByName !! name tc); [|discriminate].
  intros H. apply negb_true_iff in H. by rewrite H.
Qed.

Lemma not_among_valid (tc : ToolCall) (l : list ToolCall) :
  forallb valid_call l = true -> valid_call tc = false -> tc ∉ l.
Proof.
  intros Hall Htc Hin. apply list_elem_of_In in Hin.
  rewrite forallb_forall in Hall. specialize (Hall tc Hin). congruence.
Qed.

Lemma callTool_run (tc : ToolCall) (w : World) :
  Functional.callTool tc w
  = invoke_tool (toolsByName !! name tc) tc w.
Proof.
  unfold Functional.callTool, bind, ret.
  by destruct (invoke_tool _ _ _) as [[m|e] w'].
Qed.

(** C4, amended. When a pending tool call of the latest ai message names a
    registered tool and its arguments fail that tool's schema, the tool body
    is not run for it and the tool-execution node fails: it appends no
    message, the bodies it ran are exactly those of the calls before the first
    pending call that cannot be executed, all of them schema-valid, no call
    after that one is run, and the walk stops at the tool node with the
    error of that call, without a further model call.  The error is the
    validation error when every pending call names a registered tool.
    [callTool] of functional.ts fails with the validation error likewise. *)
Theorem invalid_arguments_stop_the_walk (state : MessagesState)
  (ai : AIResponse) (tc : ToolCall) (w : World) :
  last (messages state) = Some (AIMessage ai) ->
  tc ∈ or_empty (tool_calls ai) ->
  fails_schema tc = true ->
  exists e pre first post,
    or_empty (tool_calls ai) = pre ++ first :: post
    /\ forallb valid_call pre = true
    /\ valid_call first = false
    /\ e = (if registered first then ValidationError else TypeError)
    /\ toolNode state w = (Err e, ran pre w)
    /\ invoked (ran pre w) = invoked w ++ pre
    /\ (tc ∉ pre)
    /\ (e = ValidationError \/ e = TypeError)
    /\ (forallb registered (or_empty (tool_calls ai)) = true -> e = ValidationError)
    /\ (forall limit,
          let run := walk agent (S limit) "toolNode" state w in
          outcome run = Err e /\ executed run = ["toolNode"]
          /\ snapshots run = [] /\ world run = ran pre w
          /\ calls (world run) = calls w)
    /\ Functional.callTool tc w = (Err ValidationError, w).
Proof.
  intros Hlast Hin Hfails.
  destruct (fails_schema_invalid tc Hfails) as [Hinvalid Hreg].
  destruct (toolNode_result state ai w Hlast)
    as [(msgs & _ & Hall) | (pre & x & post & Hcalls & Hpre & Hx & Hnode)].
  { exfalso. apply (not_among_valid tc _ Hall Hinvalid Hin). }
  exists (if registered x then ValidationError else TypeError), pre, x, post.
  split; [exact Hcalls|]. split; [exact Hpre|]. split; [exact Hx|].
  split; [reflexivity|]. split; [exact Hnode|]. split; [reflexivity|].
  split; [by apply not_among_valid|].
  split; [destruct (registered x); auto|].
  split.
  { intros Hallreg. rewrite Hcalls, forallb_app in Hallreg.
    apply andb_true_iff in Hallreg as [_ Hallreg]. simpl in Hallreg.
    apply andb_true_iff in Hallreg as [-> _]. reflexivity. }
  split.
  { intros limit. cbv zeta. by rewrite (walk_toolNode_fail _ _ _ _ _ Hnode). }
  by rewrite callTool_run, (invoke_tool_invalid tc w Hinvalid), Hreg.
Qed.

(** C10, amended. If every pending tool call of the latest ai message names a
    registered tool and carries arguments that pass that tool's schema, the
    tool-execution node succeeds, with one answering tool message per call.
    If a pending call names no registered tool (and the calls before it could
    be executed), the node fails with the TypeError of the lookup that yields
    no tool, appending nothing; there is an ai message for which this
    happens.  [callTool] of functional.ts fails in the same way. *)
Theorem tool_node_success_and_failure :
  (forall (state : MessagesState) (ai : AIResponse) (w : World),
      last (messages state) = Some (AIMessage ai) ->
      forallb valid_call (or_empty (tool_calls ai)) = true ->
      exists msgs,
        toolNode state w
        = (Ok {| messages := msgs |}, ran (or_empty (tool_calls ai)) w)
        /\ Forall2 answers (or_empty (tool_calls ai)) msgs)
  /\ (forall (state : MessagesState) (ai : AIResponse) (w : World)
        (pre : list ToolCall) (tc : ToolCall) (post : list ToolCall),
        last (messages state) = Some (AIMessage ai) ->
        or_empty (tool_calls ai) = pre ++ tc :: post ->
        forallb valid_call pre = true ->
        registered tc = false ->
        toolNode state w = (Err TypeError, ran pre w)
        /\ Functional.callTool tc w = (Err TypeError, w))
  /\ (exists (state : MessagesState) (ai : AIResponse) (tc : ToolCall),
        last (messages state) = Some (AIMessage ai)
        /\ tool_calls ai = Some [tc]
        /\ registered tc = false
        /\ forall w, toolNode state w = (Err TypeError, w)).
Proof.
  assert (forall tc, registered tc = false -> valid_call tc = false) as Hunreg.
  { intros tc. unfold registered, valid_call.
    by destruct (toolsByName !! name tc). }
  split; [apply toolNode_valid|]. split.
  - intros state ai w pre tc post Hlast Hcalls Hpre Hreg.
    rewrite (toolNode_stops state ai w pre tc post Hlast Hcalls Hpre (Hunreg _ Hreg)).
    rewrite callTool_run, (invoke_tool_invalid tc w (Hunreg _ Hreg)).
    by rewrite Hreg.
  - set (tc := {| name := "subtract"; args := ∅; call_id := "call_0" |}).
    set (ai := {| ai_content := EmptyString; tool_calls := Some [tc] |}).
    exists {| messages := [AIMessage ai] |}, ai, tc.
    do 3 (split; [reflexivity|]). intros w.
    rewrite (toolNode_stops _ ai w [] tc []); try reflexivity.
    by rewrite ran_nil.
Qed.
End Failures.

Lemma invalid_arguments_stop_the_walk_witness :
  exists e pre first post,
    or_empty (tool_calls Scenario.asks_bad_add) = pre ++ first :: post
    /\ forallb Props.valid_call pre = true
    /\ Props.valid_call first = false
    /\ e = (if Props.registered first then ValidationError else TypeError)
    /\ Graph.toolNode (Scenario.after Scenario.asks_bad_add) (Scenario.fresh [])
       = (Err e, Props.ran pre (Scenario.fresh []))
    /\ invoked (Props.ran pre (Scenario.fresh []))
       = invoked (Scenario.fresh []) ++ pre
    /\ (Scenario.add_three_4 ∉ pre)
    /\ (e = ValidationError \/ e = TypeError)
    /\ (forallb Props.registered (or_empty (tool_calls Scenario.asks_bad_add)) = true
        -> e = ValidationError)
    /\ (forall limit,
          let run := walk Graph.agent (S limit) "toolNode"
                       (Scenario.after Scenario.asks_bad_add) (Scenario.fresh []) in
          outcome run = Err e /\ executed run = ["toolNode"]
          /\ snapshots run = []
          /\ world run = Props.ran pre (Scenario.fresh [])
          /\ calls (world run) = calls (Scenario.fresh []))
    /\ Functional.callTool Scenario.add_three_4 (Scenario.fresh [])
       = (Err ValidationError, Scenario.fresh []).
Proof.
  apply (invalid_arguments_stop_the_walk (N := ZNumber)
           (Scenario.after Scenario.asks_bad_add) Scenario.asks_bad_add
           Scenario.add_three_4 (Scenario.fresh [])).
  - reflexivity.
  - simpl. apply list_elem_of_here.
  - reflexivity.
Defined.

(** C4, as stated, fails: on a pending call of [add] whose [a] is a string
    the tool node does not succeed with an error message, it fails, and the
    walk stops there with the validation error after one model call. *)
Lemma invalid_arguments_are_fatal :
  let run := invoke Graph.agent 25 Scenario.initial
               (Scenario.fresh [Scenario.asks_bad_add; Scenario.says_7]) in
  Props.fails_schema Scenario.add_three_4 = true
  /\ Graph.toolNode (Scenario.after Scenario.asks_bad_add) (Scenario.fresh [])
     = (Err ValidationError, Scenario.fresh [])
  /\ outcome run = Err ValidationError
  /\ executed run = ["llmCall"; "toolNode"]
  /\ snapshots run = [Scenario.after Scenario.asks_bad_add]
  /\ calls (world run) = 1.
Proof. cbv zeta. repeat split; vm_compute; reflexivity. Qed.

(** C10, as stated, fails in its first half: the one pending call names the
    registered tool [add], yet the tool node fails. *)
Lemma registered_call_can_fail :
  forallb Props.registered (or_empty (tool_calls Scenario.asks_bad_add)) = true
  /\ last (messages (Scenario.after Scenario.asks_bad_add))
     = Some (AIMessage Scenario.asks_bad_add)
  /\ Graph.toolNode (Scenario.after Scenario.asks_bad_add) (Scenario.fresh [])
     = (Err ValidationError, Scenario.fresh []).
Proof. repeat split; vm_compute; reflexivity. Qed.

(** ** The message channel only grows *)

Section AppendOnly.
Context {N : JsNumber}.
Import Calculator Graph Props.

Lemma merge_messages_prefix (state update : MessagesState) :
  messages state `prefix_of` messages (merge_messages state update).
Proof. unfold merge_messages, addMessages. simpl. by apply prefix_app_r. Qed.

(** In a graph over the message channel, whatever its nodes and edges, the
    transcript a walk starts from is a prefix of every later transcript. *)
Lemma walk_prefix {W} (g : StateGraph MessagesState W) :
  merge g = merge_messages ->
  forall (limit : nat) (cur : string) (s : MessagesState) (w : W),
    Forall (fun s' => messages s `prefix_of` messages s')
      (snapshots (walk g limit cur s w))
    /\ (forall final, outcome (walk g limit cur s w) = Ok final ->
          messages s `prefix_of` messages final).
Proof.
  intros Hmerge. induction limit as [|limit IH]; intros cur s w.
  - simpl. split; [constructor|discriminate].
  - rewrite walk_S. destruct (assoc cur (nodes g)) as [node|];
      [|simpl; split; [constructor|discriminate]].
    destruct (node s w) as [[update|e] w'];
      [|simpl; split; [constructor|discriminate]].
    cbv zeta. rewrite Hmerge.
    pose proof (merge_messages_prefix s update) as Hstep.
    destruct (resolve (edges g) cur (merge_messages s update)) as [next|e].
    + destruct (String.eqb next END).
      * simpl. split; [by repeat constructor|]. by intros final [= <-].
      * destruct (IH next (merge_messages s update) w') as [Hsnap Hfinal].
        simpl. split.
        -- constructor; [done|].
           eapply Forall_impl; [exact Hsnap|]. intros s' Hs'. by etrans.
        -- intros final Hout. etrans; [exact Hstep|]. by apply Hfinal.
    + simpl. split; [by repeat constructor|discriminate].
Qed.

Lemma agent_loop_prefix (fuel : nat) :
  forall (msgs : list Message) (r : AIResponse) (w w' : World)
    (res : list Message),
    Functional.agent_loop fuel msgs r w = Some (Ok res, w') ->
    msgs `prefix_of` res.
Proof.
  induction fuel as [|fuel IH]; intros msgs r w w' res; [discriminate|].
  cbn [Functional.agent_loop]. destruct (negb (has_length (tool_calls r))).
  - by intros [= -> _].
  - destruct (Functional.all_callTool _ w) as [[toolResults|e] w1];
      [|discriminate].
    cbv zeta.
    destruct (Functional.callLlm
                (addMessages msgs (AIMessage r :: toolResults)) w1)
      as [[r'|e] w2]; [|discriminate].
    intros Hloop. apply IH in Hloop. etrans; [|exact Hloop].
    unfold addMessages. by apply prefix_app_r.
Qed.

(** C8. Merging a node's partial update concatenates the returned messages
    onto the transcript, in order, and removes nothing: along every walk of
    the graph agent the initial transcript is a prefix of the transcript after
    each step and of the final transcript, and the transcript the functional
    agent returns starts with the one it was given. *)
Theorem message_channel_is_append_only :
  (forall state update : MessagesState,
      messages (merge agent state update) = messages state ++ messages update)
  /\ (forall (limit : nat) (s : MessagesState) (w : World),
        let run := invoke agent limit s w in
        Forall (fun s' => messages s `prefix_of` messages s') (snapshots run)
        /\ forall final, outcome run = Ok final ->
             messages s `prefix_of` messages final)
  /\ (forall (fuel : nat) (msgs res : list Message) (w w' : World),
        Functional.agent fuel msgs w = Some (Ok res, w') ->
        msgs `prefix_of` res).
Proof.
  split; [reflexivity|]. split.
  - intros limit s w. cbv zeta. rewrite invoke_agent.
    by apply walk_prefix.
  - intros fuel msgs res w w'. unfold Functional.agent.
    destruct (Functional.callLlm msgs w) as [[r|e] w1]; [|discriminate].
    apply agent_loop_prefix.
Qed.
End AppendOnly.

(** ** The step limit *)

Section StepLimit.
Context {St W : Type}.

Lemma walk_cycle (g : StateGraph St W) (n : string)
  (node : St -> W -> result St * W) :
  n <> END ->
  assoc n (nodes g) = Some node ->
  (forall s w, exists update w', node s w = (Ok update, w')) ->
  (forall s, resolve (edges g) n s = Ok n) ->
  forall (limit : nat) (s : St) (w : W),
    outcome (walk g limit n s w) = Err StepLimitExceeded
    /\ executed (walk g limit n s w) = replicate limit n
    /\ List.length (snapshots (walk g limit n s w)) = limit.
Proof.
  intros Hn Hnode Hok Hroute. apply String.eqb_neq in Hn.
  induction limit as [|limit IH]; intros s w; [done|].
  rewrite walk_S, Hnode. destruct (Hok s w) as (update & w' & ->).
  cbv zeta. rewrite Hroute, Hn.
  destruct (IH (merge g s update) w') as (Hout & Hex & Hsnap).
  simpl. by rewrite Hout, Hex, Hsnap.
Qed.

(** C6. A walk executes at most [limit] nodes.  In a graph whose routing
    function always returns to the same node, [invoke] does not run forever:
    it fails with [StepLimitExceeded] after exactly [limit] executions of that
    node, 50 of them for the bound 50. *)
Theorem cyclic_routing_hits_the_step_limit (g : StateGraph St W) (n : string)
  (node : St -> W -> result St * W) (limit : nat) (s : St) (w : W) :
  n <> END ->
  assoc n (nodes g) = Some node ->
  (forall s w, exists update w', node s w = (Ok update, w')) ->
  (forall s, resolve (edges g) n s = Ok n) ->
  resolve (edges g) START s = Ok n ->
  let run := invoke g limit s w in
  outcome run = Err StepLimitExceeded
  /\ executed run = replicate limit n
  /\ List.length (executed run) = limit.
Proof.
  intros Hn Hnode Hok Hroute Hentry run. subst run. unfold invoke.
  rewrite Hentry. apply String.eqb_neq in Hn as Hn'. rewrite Hn'.
  destruct (walk_cycle g n node Hn Hnode Hok Hroute limit s w) as (-> & -> & _).
  split; [done|]. split; [done|]. apply length_replicate.
Qed.
End StepLimit.

Lemma cyclic_routing_hits_the_step_limit_witness :
  let run := invoke Scenario.spinning 50 0 tt in
  outcome run = Err StepLimitExceeded
  /\ executed run = replicate 50 "spin"
  /\ List.length (executed run) = 50.
Proof.
  apply (cyclic_routing_hits_the_step_limit Scenario.spinning "spin"
           (fun n w => (Ok (S n), w)) 50 0 tt).
  - discriminate.
  - reflexivity.
  - intros s w. by exists (S s), w.
  - reflexivity.
  - reflexivity.
Defined.

(** ** Fan-out and fan-in *)

Section FanOut.
Context {N : JsNumber}.
Import ComplexGraph.

Lemma settle_length {A} (promises : list A) (values : list (option A)) (i : nat) :
  List.length (settle promises values i) = List.length values.
Proof. unfold settle. destruct (promises !! i); [apply length_insert|done]. Qed.

Lemma settle_lookup {A} (promises : list A) (values : list (option A)) (i j : nat) :
  List.length values = List.length promises ->
  settle promises values i !! j
  = if decide (i = j) then Some <$> promises !! i else values !! j.
Proof.
  intros Hlen. unfold settle. destruct (promises !! i) as [v|] eqn:Hi.
  - apply lookup_lt_Some in Hi. rewrite list_lookup_insert.
    destruct (decide (i = j)) as [->|Hne].
    + rewrite decide_True; [done|]. split; [done|lia].
    + rewrite decide_False; [done|]. by intros [? _].
  - destruct (decide (i = j)) as [->|Hne]; [|done].
    apply lookup_ge_None in Hi. simpl. apply lookup_ge_None. lia.
Qed.

Lemma foldl_settle {A} (promises : list A) (completion : list nat) :
  forall values : list (option A),
    List.length values = List.length promises ->
    List.length (foldl (settle promises) values completion) = List.length promises
    /\ forall j,
         foldl (settle promises) values completion !! j
         = if decide (j ∈ completion) then Some <$> promises !! j
           else values !! j.
Proof.
  induction completion as [|c cs IH]; intros values Hlen.
  - split; [done|]. intros j. rewrite decide_False; [done|]. apply not_elem_of_nil.
  - simpl. destruct (IH (settle promises values c)) as [Hlen' Hlook].
    { by rewrite settle_length. }
    split; [done|]. intros j. rewrite Hlook, settle_lookup by done.
    destruct (decide (j ∈ cs)) as [Hin|Hnin].
    + rewrite decide_True; [done|]. by apply list_elem_of_further.
    + destruct (decide (c = j)) as [->|Hne].
      * rewrite decide_True; [done|]. apply list_elem_of_here.
      * rewrite decide_False; [done|].
        intros [->|Hin]%elem_of_cons; [done|]. by apply Hnin.
Qed.

(** Whatever the order of completion, the array is in the order of the
    promises. *)
Lemma Promise_all_any_order {A} (promises : list A) (completion : list nat) :
  completion ≡ₚ seq 0 (List.length promises) ->
  Promise_all promises completion = Some promises.
Proof.
  intros Hperm. unfold Promise_all.
  destruct (foldl_settle promises completion
              (replicate (List.length promises) None)) as [Hlen Hlook].
  { apply length_replicate. }
  replace (foldl (settle promises) _ completion) with (Some <$> promises).
  { by apply mapM_fmap_Some. }
  apply list_eq. intros j. rewrite Hlook, list_lookup_fmap.
  destruct (decide (j ∈ completion)) as [Hin|Hnin]; [done|].
  rewrite Hperm, elem_of_seq in Hnin.
  assert (List.length promises <= j) as Hge by lia.
  rewrite (proj2 (lookup_ge_None promises j) Hge). simpl. symmetry.
  apply lookup_ge_None. by rewrite length_replicate.
Qed.

Lemma get_set_property (o : jsobject) (k k' : string) (v : jsval) :
  get_property (set_property o k v) k'
  = if String.eqb k k' then Some v else get_property o k'.
Proof.
  induction o as [|[k0 v0] o IH]; simpl.
  - by destruct (String.eqb k k').
  - destruct (String.eqb k0 k) eqn:Hk0; simpl.
    + apply String.eqb_eq in Hk0 as ->. by destruct (String.eqb k k').
    + rewrite IH. destruct (String.eqb k0 k') eqn:Hk0'; [|done].
      apply String.eqb_eq in Hk0' as ->. by rewrite String.eqb_sym, Hk0.
Qed.

(** A source that has no property [k] leaves the target's [k] as it is. *)
Lemma copy_properties_other (source : jsobject) :
  forall (target : jsobject) (k : string),
    k ∉ source.*1 ->
    get_property (copy_properties target source) k = get_property target k.
Proof.
  induction source as [|[k0 v0] source IH]; intros target k Hk; [done|].
  apply not_elem_of_cons in Hk as [Hne Hk].
  unfold copy_properties in *. cbn [foldl fst snd]. rewrite (IH _ _ Hk).
  rewrite get_set_property.
  destruct (String.eqb k0 k) eqn:Heq; [|done].
  apply String.eqb_eq in Heq. by subst.
Qed.

(** A source that has the property [k] gives the target its value. *)
Lemma copy_properties_written (source : jsobject) :
  forall (target : jsobject) (k : string) (v : jsval),
    NoDup source.*1 ->
    (k, v) ∈ source ->
    get_property (copy_properties target source) k = Some v.
Proof.
  induction source as [|[k0 v0] source IH]; intros target k v Hnodup Hin.
  { by apply elem_of_nil in Hin. }
  apply NoDup_cons in Hnodup as [Hfresh Hnodup].
  apply elem_of_cons in Hin as [[= -> ->]|Hin].
  - unfold copy_properties. cbn [foldl fst snd].
    fold (copy_properties (set_property target k0 v0) source).
    rewrite (copy_properties_other _ _ _ Hfresh), get_set_property.
    by rewrite String.eqb_refl.
  - unfold copy_properties. cbn [foldl fst snd].
    fold (copy_properties (set_property target k0 v0) source).
    by apply IH.
Qed.

Lemma Object_assign_snoc (target : jsobject) (sources : list jsobject)
  (src : jsobject) :
  Object_assign target (sources ++ [src])
  = copy_properties (Object_assign target sources) src.
Proof. unfold Object_assign. by rewrite foldl_snoc. Qed.

(** The last source that has a key decides its value. *)
Lemma Object_assign_later_wins (post : list jsobject) :
  forall (target : jsobject) (pre : list jsobject) (src : jsobject)
    (k : string) (v : jsval),
    NoDup src.*1 ->
    (k, v) ∈ src ->
    Forall (fun o : jsobject => k ∉ o.*1) post ->
    get_property (Object_assign target (pre ++ src :: post)) k = Some v.
Proof.
  induction post as [|p post IH] using rev_ind;
    intros target pre src k v Hnodup Hsrc Hpost.
  - rewrite Object_assign_snoc. by apply copy_properties_written.
  - apply Forall_app in Hpost as [Hpost Hp].
    apply Forall_inv in Hp.
    replace (pre ++ src :: post ++ [p]) with ((pre ++ src :: post) ++ [p])
      by (by rewrite <- app_assoc).
    rewrite Object_assign_snoc, copy_properties_other by done. by apply IH.
Qed.

Lemma enrichDataNode_any_order (state : GraphState) (rnd : Q)
  (completion : list nat) :
  completion ≡ₚ [0; 1; 2] ->
  enrichDataNode state rnd completion
  = Some {| enrichments_update := Object_assign [] (sub_tasks state rnd) |}.
Proof.
  intros Hperm. unfold enrichDataNode.
  by rewrite (Promise_all_any_order (sub_tasks state rnd) completion Hperm).
Qed.

Lemma sentiment_of_draw (state : GraphState) (rnd : Q) :
  get_property (Object_assign [] (sub_tasks state rnd)) "sentiment"
  = Some (JStr (if above_half rnd then "positive" else "neutral")).
Proof. reflexivity. Qed.

(** C5, amended. The combined update of the fan-out stage is a function of
    the input state and of the random draw of the sentiment sub-task: the
    results of the sub-tasks, declared in the order sentiment, complexity,
    tags, are merged in that order whatever the order of completion, so two
    runs from the same state with the same draw give the same enrichment
    object, with its three keys in the order of declaration, whatever the
    timing.  The three sub-tasks write three different keys; in the merge
    the node performs ([Promise.all], then [Object.assign] on an empty
    object), for any number of sub-task results and any order of completion,
    a key that several results write gets the value of the one declared last
    among them. *)
Theorem fan_in_follows_declaration_order (state : GraphState) (rnd : Q)
  (completion completion' : list nat) :
  completion ≡ₚ [0; 1; 2] ->
  completion' ≡ₚ [0; 1; 2] ->
  enrichDataNode state rnd completion = enrichDataNode state rnd completion'
  /\ enrichDataNode state rnd completion
     = Some {| enrichments_update :=
                 [ ("sentiment",
                    JStr (if above_half rnd then "positive" else "neutral"));
                   ("complexity",
                    JStr (if Nat.ltb 20 (String.length (input state))
                          then "high" else "low"));
                   ("tags", JArr [JStr "processed"; category state; JStr "v1"])
                 ] |}
  /\ enrichDataNode state rnd completion
     = (results ← Promise_all (sub_tasks state rnd) completion;
        Some {| enrichments_update := Object_assign [] results |})
  /\ (forall (tasks pre post : list jsobject) (last_writer : jsobject)
        (order : list nat) (k : string) (v : jsval),
        tasks = pre ++ last_writer :: post ->
        order ≡ₚ seq 0 (List.length tasks) ->
        NoDup last_writer.*1 ->
        (k, v) ∈ last_writer ->
        Forall (fun o : jsobject => k ∉ o.*1) post ->
        exists results,
          Promise_all tasks order = Some results
          /\ results = tasks
          /\ get_property (Object_assign [] results) k = Some v).
Proof.
  intros Hperm Hperm'.
  pose proof (enrichDataNode_any_order state rnd) as Hrun.
  split; [by rewrite !Hrun|]. split; [by apply Hrun|].
  split.
  { unfold enrichDataNode.
    by destruct (Promise_all (sub_tasks state rnd) completion). }
  intros tasks pre post last_writer order k v -> Horder Hnodup Hin Hpost.
  exists (pre ++ last_writer :: post). split; [|split; [done|]].
  - by apply Promise_all_any_order.
  - by apply Object_assign_later_wins.
Qed.
End FanOut.

Lemma fan_in_follows_declaration_order_witness :
  ComplexGraph.enrichDataNode (Scenario.classified (JStr "text")) (9 # 10) [2; 0; 1]
  = ComplexGraph.enrichDataNode (Scenario.classified (JStr "text")) (9 # 10) [1; 2; 0].
Proof.
  refine (proj1 (fan_in_follows_declaration_order (N := ZNumber)
                   (Scenario.classified (JStr "text")) (9 # 10)
                   [2; 0; 1] [1; 2; 0] _ _)).
  - apply (Permutation_cons_app [0; 1] []). reflexivity.
  - apply (Permutation_cons_app [0] [2]). apply perm_swap.
Defined.

(** C5, as stated, fails: two runs from the same input state, with the same
    order of completion, give different enrichment objects when the random
    draws differ. *)
Lemma same_state_different_enrichments :
  let state := Scenario.classified (JStr "text") in
  let drawn rnd :=
    {| ComplexGraph.enrichments_update :=
         ComplexGraph.Object_assign [] (ComplexGraph.sub_tasks state rnd) |} in
  ComplexGraph.enrichDataNode state (9 # 10) [0; 1; 2] = Some (drawn (9 # 10)%Q)
  /\ ComplexGraph.enrichDataNode state (1 # 10) [0; 1; 2] = Some (drawn (1 # 10)%Q)
  /\ ComplexGraph.get_property
       (ComplexGraph.enrichments_update (drawn (9 # 10)%Q)) "sentiment"
     = Some (JStr "positive")
  /\ ComplexGraph.get_property
       (ComplexGraph.enrichments_update (drawn (1 # 10)%Q)) "sentiment"
     = Some (JStr "neutral")
  /\ ComplexGraph.enrichDataNode state (9 # 10) [0; 1; 2]
     <> ComplexGraph.enrichDataNode state (1 # 10) [0; 1; 2].
Proof.
  cbv zeta.
  pose proof (enrichDataNode_any_order (N := ZNumber)
                (Scenario.classified (JStr "text"))) as Hrun.
  pose proof (sentiment_of_draw (N := ZNumber)
                (Scenario.classified (JStr "text"))) as Hdraw.
  split; [by apply Hrun|]. split; [by apply Hrun|].
  split; [apply Hdraw|]. split; [apply Hdraw|].
  rewrite !Hrun by reflexivity. intros Heq.
  apply (f_equal (fun o => u ← o;
            ComplexGraph.get_property (ComplexGraph.enrichments_update u) "sentiment"))
    in Heq.
  cbn [mbind option_bind ComplexGraph.enrichments_update] in Heq.
  rewrite !Hdraw in Heq. discriminate Heq.
Qed.

(** ** Routing functions *)

Section Routing.
Context {N : JsNumber}.



End Routing.


(** ** The functional agent on the concrete scenario *)

(** The loop of functional.ts breaks on the answer without tool calls before
    adding it: the transcript it returns ends with the tool result. *)
Lemma functional_agent_on_add_3_and_4 :
  option_map fst
    (Functional.agent 2 (messages Scenario.initial)
       (Scenario.fresh [Scenario.asks_add; Scenario.says_7]))
  = Some (Ok [HumanMessage "Add 3 and 4."; AIMessage Scenario.asks_add;
              ToolMessage "7" "call_1" "add"]).
Proof. vm_compute. reflexivity. Qed.

(** * Further properties of the tool-calling loop *)

Section Scripts.
Context {N : JsNumber}.
Import Calculator Graph Props Transcript.

Lemma observation_valid (tc : ToolCall) :
  valid_call tc = true -> exists m, observation tc = Some m.
Proof.
  unfold valid_call, observation.
  destruct (toolsByName !! name tc) as [t|]; [|discriminate].
  intros ->. by eexists.
Qed.

Lemma invoke_tool_observation (tc : ToolCall) (w : World) :
  invoke_tool (toolsByName !! name tc) tc w
  = match observation tc with
    | Some m => (Ok m, ran [tc] w)
    | None => (Err (if registered tc then ValidationError else TypeError), w)
    end.
Proof.
  unfold invoke_tool, observation, registered, Tool_invoke, throw.
  destruct (toolsByName !! name tc) as [t|]; [|done].
  by destruct (validate (schema t) (args tc)).
Qed.

(** The loop of the tool node, on calls that can all be executed, pushes the
    observation of each call, in order. *)
Lemma for_toolCalls_observations (toolCalls : list ToolCall) :
  forall (acc : list Message) (w : World),
    forallb valid_call toolCalls = true ->
    for_toolCalls toolCalls acc w
    = (Ok (acc ++ omap observation toolCalls), ran toolCalls w).
Proof.
  induction toolCalls as [|tc rest IH]; intros acc w Hall.
  - simpl. by rewrite app_nil_r, ran_nil.
  - simpl in Hall. apply andb_true_iff in Hall as [Htc Hrest].
    destruct (observation_valid tc Htc) as [m Hm].
    cbn [for_toolCalls omap list_omap]. unfold bind at 1.
    rewrite invoke_tool_observation, Hm.
    rewrite (IH _ _ Hrest), ran_app. by rewrite <- app_assoc.
Qed.

Lemma observation_invalid (tc : ToolCall) :
  valid_call tc = false -> observation tc = None.
Proof.
  unfold valid_call, observation.
  destruct (toolsByName !! name tc) as [t|]; [|done]. by intros ->.
Qed.

(** [Promise.all] over [callTool] runs the tool of every call that can be
    executed, also after a call that fails; the whole succeeds, with the
    observations in the order of the calls, exactly when every call can be
    executed. *)
Lemma all_callTool_run (toolCalls : list ToolCall) (w : World) :
  exists r,
    Functional.all_callTool toolCalls w
    = (r, ran (List.filter valid_call toolCalls) w)
    /\ if forallb valid_call toolCalls
       then r = Ok (omap observation toolCalls)
       else exists e, r = Err e.
Proof.
  revert w. induction toolCalls as [|tc rest IH]; intros w.
  - exists (Ok []). cbn [List.filter]. by rewrite ran_nil.
  - cbn [Functional.all_callTool List.filter forallb omap list_omap].
    rewrite callTool_run, invoke_tool_observation.
    destruct (valid_call tc) eqn:Htc.
    + destruct (observation_valid tc Htc) as [m Hm]. rewrite Hm.
      destruct (IH (ran [tc] w)) as (r & -> & Hr). rewrite ran_app.
      cbn [andb app]. destruct (forallb valid_call rest).
      * subst r. by eexists.
      * destruct Hr as [e ->]. eexists. split; [reflexivity|]. by exists e.
    + rewrite (observation_invalid tc Htc).
      destruct (IH w) as (r & -> & _). cbn [andb].
      eexists. split; [reflexivity|]. by eexists.
Qed.

Lemma filter_all_valid (toolCalls : list ToolCall) :
  forallb valid_call toolCalls = true ->
  List.filter valid_call toolCalls = toolCalls.
Proof.
  induction toolCalls as [|tc rest IH]; [done|]. simpl.
  intros [Htc Hrest]%andb_true_iff. rewrite Htc. f_equal. by apply IH.
Qed.

Lemma all_callTool_observations (toolCalls : list ToolCall) (w : World) :
  forallb valid_call toolCalls = true ->
  Functional.all_callTool toolCalls w
  = (Ok (omap observation toolCalls), ran toolCalls w).
Proof.
  intros Hall. destruct (all_callTool_run toolCalls w) as (r & -> & Hr).
  rewrite Hall in Hr. subst r. by rewrite (filter_all_valid _ Hall).
Qed.

Lemma all_callTool_ok (toolCalls : list ToolCall) (w w' : World)
  (results : list Message) :
  Functional.all_callTool toolCalls w = (Ok results, w') ->
  forallb valid_call toolCalls = true.
Proof.
  intros Hrun. destruct (all_callTool_run toolCalls w) as (r & Hr & Hcase).
  rewrite Hrun in Hr. injection Hr as <- _.
  destruct (forallb valid_call toolCalls); [done|]. by destruct Hcase.
Qed.
End Scripts.

Section ScriptedRuns.
Context {N : JsNumber}.
Import Calculator Graph Props Transcript.

Lemma executable_split (r : AIResponse) :
  executable r = true ->
  has_length (tool_calls r) = true
  /\ forallb valid_call (pending_calls r) = true.
Proof. unfold executable. by intros ?%andb_true_iff. Qed.

Lemma scripted_head (w : World) (r : AIResponse) (rs : list AIResponse)
  (final : AIResponse) :
  scripted w (r :: rs) final -> oracle w (calls w) = Ok r.
Proof.
  intros [Hrs _]. specialize (Hrs 0 r eq_refl). by rewrite Nat.add_0_r in Hrs.
Qed.

Lemma scripted_tail (w w' : World) (r : AIResponse) (rs : list AIResponse)
  (final : AIResponse) :
  oracle w' = oracle w ->
  calls w' = S (calls w) ->
  scripted w (r :: rs) final -> scripted w' rs final.
Proof.
  intros Ho Hc [Hrs Hfinal]. split.
  - intros i r' Hi. rewrite Ho, Hc. specialize (Hrs (S i) r' Hi).
    by replace (S (calls w) + i) with (calls w + S i) by lia.
  - rewrite Ho, Hc. simpl in Hfinal.
    by replace (S (calls w) + List.length rs)
      with (calls w + S (List.length rs)) by lia.
Qed.

Lemma scripted_cons (w w' : World) (r : AIResponse) (rs : list AIResponse)
  (final : AIResponse) :
  oracle w' = oracle w ->
  calls w' = S (calls w) ->
  oracle w (calls w) = Ok r ->
  scripted w' rs final -> scripted w (r :: rs) final.
Proof.
  intros Ho Hc Hr [Hrs Hfinal]. split.
  - intros [|i] r' Hi.
    + injection Hi as <-. by rewrite Nat.add_0_r.
    + specialize (Hrs i r' Hi). rewrite Ho, Hc in Hrs.
      by replace (calls w + S i) with (S (calls w) + i) by lia.
  - rewrite Ho, Hc in Hfinal. simpl.
    by replace (calls w + S (List.length rs))
      with (S (calls w) + List.length rs) by lia.
Qed.

Lemma after_script_nil (s : MessagesState) (w : World) :
  after_script (messages s) [] w = prompted s w.
Proof.
  unfold after_script, prompted. simpl. rewrite app_nil_r. f_equal. lia.
Qed.

Lemma after_script_cons (msgs : list Message) (r : AIResponse)
  (rs : list AIResponse) (w : World) :
  after_script (msgs ++ round r) rs
    (ran (pending_calls r) (prompted {| messages := msgs |} w))
  = after_script msgs (r :: rs) w.
Proof.
  unfold after_script, ran, prompted. simpl. f_equal.
  - lia.
  - by rewrite <- app_assoc.
  - by rewrite <- app_assoc.
Qed.

Lemma toolNode_executable (s : MessagesState) (r : AIResponse) (w : World) :
  forallb valid_call (pending_calls r) = true ->
  toolNode (answered s r) w
  = (Ok {| messages := omap observation (pending_calls r) |},
     ran (pending_calls r) w).
Proof.
  intros Hall. unfold pending_calls in *. rewrite (toolNode_ai _ r).
  - by rewrite (for_toolCalls_observations _ [] w Hall).
  - unfold answered, merge_messages, addMessages. simpl. apply last_snoc.
Qed.

Lemma answered_observed (s : MessagesState) (r : AIResponse) :
  messages (merge_messages (answered s r)
              {| messages := omap observation (pending_calls r) |})
  = messages s ++ round r.
Proof.
  unfold answered, merge_messages, addMessages, round. simpl.
  by rewrite <- app_assoc.
Qed.

(** The walk along a script. *)
Lemma walk_script (rs : list AIResponse) :
  forall (final : AIResponse) (limit : nat) (s : MessagesState) (w : World),
    scripted w rs final ->
    forallb executable rs = true ->
    has_length (tool_calls final) = false ->
    2 * List.length rs + 1 <= limit ->
    outcome (walk agent limit "llmCall" s w)
    = Ok {| messages := messages s ++ rounds rs ++ [AIMessage final] |}
    /\ executed (walk agent limit "llmCall" s w)
       = "llmCall" :: cycles (List.length rs)
    /\ world (walk agent limit "llmCall" s w) = after_script (messages s) rs w.
Proof.
  induction rs as [|r rs IH]; intros final limit s w Hscript Hexec Hfinal Hlimit.
  - destruct Hscript as [_ Ho]. simpl in Ho. rewrite Nat.add_0_r in Ho.
    destruct limit as [|limit]; [simpl in Hlimit; lia|].
    rewrite (walk_llmCall_stop _ _ _ final Ho Hfinal). simpl.
    by rewrite after_script_nil.
  - simpl in Hexec. apply andb_true_iff in Hexec as [Hr Hexec].
    apply executable_split in Hr as [Hlen Hvalid].
    pose proof (scripted_head _ _ _ _ Hscript) as Ho.
    destruct limit as [|[|limit]]; [simpl in Hlimit; lia..|].
    rewrite (walk_llmCall_go _ _ _ r Ho Hlen). cbv zeta.
    rewrite (walk_toolNode_ok _ _ _ _ _
               (toolNode_executable s r (prompted s w) Hvalid)).
    cbv zeta.
    set (s2 := merge_messages (answered s r)
                 {| messages := omap observation (pending_calls r) |}).
    set (w2 := ran (pending_calls r) (prompted s w)).
    destruct (IH final limit s2 w2) as (Hout & Hex & Hworld); try done.
    { by apply (scripted_tail w w2 r). }
    { simpl in Hlimit. lia. }
    unfold stopped. cbn [outcome executed world].
    rewrite Hout, Hex, Hworld. subst s2 w2.
    rewrite answered_observed. destruct s as [msgs]. cbn [messages].
    rewrite after_script_cons. unfold rounds. simpl.
    by rewrite <- !app_assoc.
Qed.

(** A walk succeeds only along a script. *)
Lemma walk_success_script (limit : nat) :
  forall (s s' : MessagesState) (w : World),
    outcome (walk agent limit "llmCall" s w) = Ok s' ->
    exists rs final,
      scripted w rs final
      /\ forallb executable rs = true
      /\ has_length (tool_calls final) = false
      /\ 2 * List.length rs + 1 <= limit.
Proof.
  induction limit as [limit IH] using lt_wf_ind. intros s s' w Hout.
  destruct limit as [|limit]; [discriminate|].
  destruct (oracle w (calls w)) as [r|e] eqn:Ho;
    [|by rewrite (walk_llmCall_fail _ _ _ e Ho) in Hout].
  destruct (has_length (tool_calls r)) eqn:Hlen.
  - rewrite (walk_llmCall_go _ _ _ r Ho Hlen) in Hout. cbv zeta in Hout.
    destruct limit as [|limit]; [discriminate|].
    destruct (toolNode_result (answered s r) r (prompted s w))
      as [(msgs & Hnode & Hvalid) | (pre & tc & post & _ & _ & _ & Hnode)].
    { unfold answered, merge_messages, addMessages. simpl. apply last_snoc. }
    + rewrite (walk_toolNode_ok _ _ _ _ _ Hnode) in Hout. cbv zeta in Hout.
      simpl in Hout. apply IH in Hout as (rs & final & Hs & He & Hf & Hl); [|lia].
      exists (r :: rs), final. split; [|split; [|split]].
      * by apply (scripted_cons w _ r rs final) in Hs.
      * simpl. rewrite He. unfold executable, pending_calls.
        by rewrite Hlen, Hvalid.
      * done.
      * simpl. lia.
    + by rewrite (walk_toolNode_fail _ _ _ _ _ Hnode) in Hout.
  - exists [], r. split; [split|].
    + intros i r' Hi. by rewrite lookup_nil in Hi.
    + simpl. by rewrite Nat.add_0_r.
    + split; [done|]. split; [done|]. simpl. lia.
Qed.

(** X1. Along a script - the model answers [rs], each asking for tools whose
    calls can all be executed, then [final], which asks for none - and with a
    step limit that admits [2 |rs| + 1] nodes, the walk of the graph agent
    succeeds; its transcript is the initial one, then for each answer of [rs]
    the ai message followed by the observation of each of its calls, then the
    final ai message; the model was sent, at each call, the system prompt and
    the transcript so far, and the tools ran on the calls of [rs] in order. *)
Theorem graph_agent_follows_the_script (rs : list AIResponse)
  (final : AIResponse) (limit : nat) (s : MessagesState) (w : World) :
  scripted w rs final ->
  forallb executable rs = true ->
  has_length (tool_calls final) = false ->
  2 * List.length rs + 1 <= limit ->
  let run := invoke agent limit s w in
  outcome run = Ok {| messages := messages s ++ rounds rs ++ [AIMessage final] |}
  /\ executed run = "llmCall" :: cycles (List.length rs)
  /\ world run = after_script (messages s) rs w.
Proof.
  intros Hscript Hexec Hfinal Hlimit run. subst run. rewrite invoke_agent.
  by apply walk_script.
Qed.

(** X2. The walk of the graph agent succeeds exactly when the model follows
    such a script that fits in the step limit, and its final transcript is
    then the one the script gives: no other run of the agent ends in
    success. *)
Theorem graph_agent_succeeds_only_on_a_script (limit : nat)
  (s s' : MessagesState) (w : World) :
  outcome (invoke agent limit s w) = Ok s'
  <-> exists rs final,
        scripted w rs final
        /\ forallb executable rs = true
        /\ has_length (tool_calls final) = false
        /\ 2 * List.length rs + 1 <= limit
        /\ s' = {| messages := messages s ++ rounds rs ++ [AIMessage final] |}.
Proof.
  rewrite invoke_agent. split.
  - intros Hout.
    destruct (walk_success_script limit s s' w Hout)
      as (rs & final & Hs & He & Hf & Hl).
    exists rs, final. do 4 (split; [done|]).
    destruct (walk_script rs final limit s w Hs He Hf Hl) as (Hout' & _).
    rewrite Hout in Hout'. by injection Hout' as ->.
  - intros (rs & final & Hs & He & Hf & Hl & ->).
    by destruct (walk_script rs final limit s w Hs He Hf Hl) as (-> & _).
Qed.
End ScriptedRuns.

Section FunctionalRuns.
Context {N : JsNumber}.
Import Calculator Graph Props Transcript.

Lemma callLlm_run (msgs : list Message) (w : World) :
  Functional.callLlm msgs w
  = (oracle w (calls w), prompted {| messages := msgs |} w).
Proof. reflexivity. Qed.

(** One turn of the functional agent: the model call, then either the return
    or the tools and the same agent on the longer transcript. *)
Lemma agent_S (fuel : nat) (msgs : list Message) (w : World) :
  Functional.agent (S fuel) msgs w
  = match oracle w (calls w) with
    | Err e => Some (Err e, prompted {| messages := msgs |} w)
    | Ok r =>
        if has_length (tool_calls r) then
          match Functional.all_callTool (pending_calls r)
                  (prompted {| messages := msgs |} w) with
          | (Err e, w2) => Some (Err e, w2)
          | (Ok results, w2) =>
              Functional.agent fuel (msgs ++ AIMessage r :: results) w2
          end
        else Some (Ok msgs, prompted {| messages := msgs |} w)
    end.
Proof.
  unfold Functional.agent at 1. rewrite callLlm_run.
  destruct (oracle w (calls w)) as [r|e]; [|done].
  cbn [Functional.agent_loop]. destruct (has_length (tool_calls r)); [|done].
  cbn [negb]. unfold pending_calls.
  destruct (Functional.all_callTool _ _) as [[results|e] w2]; [|done].
  reflexivity.
Qed.

Lemma agent_O (msgs : list Message) (w : World) :
  Functional.agent 0 msgs w
  = match oracle w (calls w) with
    | Err e => Some (Err e, prompted {| messages := msgs |} w)
    | Ok r => None
    end.
Proof.
  unfold Functional.agent. rewrite callLlm_run.
  by destruct (oracle w (calls w)).
Qed.

Lemma agent_script (rs : list AIResponse) :
  forall (final : AIResponse) (fuel : nat) (msgs : list Message) (w : World),
    scripted w rs final ->
    forallb executable rs = true ->
    has_length (tool_calls final) = false ->
    List.length rs < fuel ->
    Functional.agent fuel msgs w
    = Some (Ok (msgs ++ rounds rs), after_script msgs rs w).
Proof.
  induction rs as [|r rs IH]; intros final fuel msgs w Hscript Hexec Hfinal Hfuel.
  - destruct Hscript as [_ Ho]. simpl in Ho. rewrite Nat.add_0_r in Ho.
    destruct fuel as [|fuel]; [simpl in Hfuel; lia|].
    rewrite agent_S, Ho, Hfinal.
    by rewrite (after_script_nil {| messages := msgs |}), app_nil_r.
  - simpl in Hexec. apply andb_true_iff in Hexec as [Hr Hexec].
    apply executable_split in Hr as [Hlen Hvalid].
    pose proof (scripted_head _ _ _ _ Hscript) as Ho.
    destruct fuel as [|fuel]; [simpl in Hfuel; lia|].
    rewrite agent_S, Ho, Hlen, (all_callTool_observations _ _ Hvalid).
    change (AIMessage r :: omap observation (pending_calls r)) with (round r).
    rewrite (IH final fuel); try done.
    + rewrite after_script_cons. unfold rounds. simpl.
      by rewrite <- app_assoc.
    + by apply (scripted_tail w _ r).
    + simpl in Hfuel. lia.
Qed.

Lemma agent_success_script (fuel : nat) :
  forall (msgs res : list Message) (w w' : World),
    Functional.agent fuel msgs w = Some (Ok res, w') ->
    exists rs final,
      scripted w rs final
      /\ forallb executable rs = true
      /\ has_length (tool_calls final) = false
      /\ List.length rs < fuel.
Proof.
  induction fuel as [|fuel IH]; intros msgs res w w'.
  - rewrite agent_O. by destruct (oracle w (calls w)).
  - rewrite agent_S. destruct (oracle w (calls w)) as [r|e] eqn:Ho; [|done].
    destruct (has_length (tool_calls r)) eqn:Hlen.
    + destruct (Functional.all_callTool _ _) as [[results|e] w2] eqn:Htools;
        [|done].
      pose proof (all_callTool_ok _ _ _ _ Htools) as Hvalid.
      rewrite (all_callTool_observations _ _ Hvalid) in Htools.
      injection Htools as <- <-.
      intros (rs & final & Hs & He & Hf & Hl)%IH.
      exists (r :: rs), final. split; [|split; [|split]].
      * by apply (scripted_cons w _ r rs final) in Hs.
      * simpl. rewrite He. unfold executable. by rewrite Hlen, Hvalid.
      * done.
      * simpl. lia.
    + intros _. exists [], r. split; [split|].
      * intros i r' Hi. by rewrite lookup_nil in Hi.
      * simpl. by rewrite Nat.add_0_r.
      * split; [done|]. split; [done|]. simpl. lia.
Qed.

(** X3. The functional agent returns a transcript exactly when the model
    follows a script of fewer rounds than the loop may iterate; the transcript
    is then the given one followed by the rounds - each ai message that asks
    for tools and the observations of its calls - and it does not contain the
    model's final answer, although the model was called for it: the world is
    the one the graph agent leaves on the same script. *)
Theorem functional_agent_returns_the_rounds (fuel : nat)
  (msgs res : list Message) (w w' : World) :
  Functional.agent fuel msgs w = Some (Ok res, w')
  <-> exists rs final,
        scripted w rs final
        /\ forallb executable rs = true
        /\ has_length (tool_calls final) = false
        /\ List.length rs < fuel
        /\ res = msgs ++ rounds rs
        /\ w' = after_script msgs rs w.
Proof.
  split.
  - intros Hrun.
    destruct (agent_success_script fuel msgs res w w' Hrun)
      as (rs & final & Hs & He & Hf & Hl).
    exists rs, final. do 4 (split; [done|]).
    rewrite (agent_script rs final fuel msgs w Hs He Hf Hl) in Hrun.
    by injection Hrun as -> ->.
  - intros (rs & final & Hs & He & Hf & Hl & -> & ->).
    by apply agent_script with final.
Qed.

(** X4. The two agents agree up to the final answer: whenever the walk of
    the graph agent succeeds, the functional agent, given the same messages,
    the same world and at least as many iterations as the walk had steps,
    returns the same transcript without its last message, which is the
    model's final answer, and leaves the same world - the same prompts were
    sent and the same tools ran. *)
Theorem agents_agree_up_to_the_final_answer (limit fuel : nat)
  (s s' : MessagesState) (w : World) :
  limit <= fuel ->
  outcome (invoke agent limit s w) = Ok s' ->
  exists res final,
    Functional.agent fuel (messages s) w
    = Some (Ok res, world (invoke agent limit s w))
    /\ messages s' = res ++ [AIMessage final]
    /\ has_length (tool_calls final) = false.
Proof.
  intros Hfuel Hout. rewrite invoke_agent in *.
  destruct (walk_success_script limit s s' w Hout)
    as (rs & final & Hs & He & Hf & Hl).
  destruct (walk_script rs final limit s w Hs He Hf Hl) as (Hout' & _ & Hworld).
  rewrite Hout in Hout'. injection Hout' as ->.
  exists (messages s ++ rounds rs), final.
  rewrite Hworld, (agent_script rs final fuel (messages s) w Hs He Hf) by lia.
  cbn [messages]. by rewrite app_assoc.
Qed.
End FunctionalRuns.

Lemma graph_agent_follows_the_script_witness :
  let w := Scenario.fresh [Scenario.asks_add; Scenario.says_7] in
  let run := invoke Graph.agent 25 Scenario.initial w in
  outcome run
  = Ok {| messages := messages Scenario.initial
                      ++ Transcript.rounds [Scenario.asks_add]
                      ++ [AIMessage Scenario.says_7] |}
  /\ executed run = "llmCall" :: Props.cycles 1
  /\ world run
     = Transcript.after_script (messages Scenario.initial) [Scenario.asks_add] w.
Proof.
  apply (graph_agent_follows_the_script (N := ZNumber) [Scenario.asks_add]
           Scenario.says_7 25 Scenario.initial
           (Scenario.fresh [Scenario.asks_add; Scenario.says_7])).
  - split; [|reflexivity]. intros [|i] r Hi; [|discriminate Hi].
    injection Hi as <-. reflexivity.
  - reflexivity.
  - reflexivity.
  - simpl. lia.
Defined.

Lemma agents_agree_up_to_the_final_answer_witness :
  exists res final,
    Functional.agent 30 (messages Scenario.initial)
      (Scenario.fresh [Scenario.asks_add; Scenario.says_7])
    = Some (Ok res,
            world (invoke Graph.agent 25 Scenario.initial
                     (Scenario.fresh [Scenario.asks_add; Scenario.says_7])))
    /\ [HumanMessage "Add 3 and 4."; AIMessage Scenario.asks_add;
        ToolMessage "7" "call_1" "add"; AIMessage Scenario.says_7]
       = res ++ [AIMessage final]
    /\ has_length (tool_calls final) = false.
Proof.
  apply (agents_agree_up_to_the_final_answer (N := ZNumber) 25 30
           Scenario.initial
           {| messages := [HumanMessage "Add 3 and 4."; AIMessage Scenario.asks_add;
                           ToolMessage "7" "call_1" "add";
                           AIMessage Scenario.says_7] |}
           (Scenario.fresh [Scenario.asks_add; Scenario.says_7])).
  - lia.
  - vm_compute. reflexivity.
Defined.

Section Failures2.
Context {N : JsNumber}.
Import Calculator Graph Props Transcript.

Lemma cycles_prefix_S (n : nat) : cycles n `prefix_of` cycles (S n).
Proof.
  induction n as [|n IH]; [apply prefix_nil|].
  cbn [cycles]. by do 2 apply prefix_cons.
Qed.

Lemma last_cons_Some {A} (a x : A) (l : list A) :
  last l = Some x -> last (a :: l) = Some x.
Proof. by destruct l. Qed.

(** Why a walk from the model-call node ends in failure. *)
Lemma walk_failures (limit : nat) :
  forall (s : MessagesState) (w : World),
    executed (walk agent limit "llmCall" s w) `prefix_of` "llmCall" :: cycles limit
    /\ List.length (executed (walk agent limit "llmCall" s w)) <= limit
    /\ forall e, outcome (walk agent limit "llmCall" s w) = Err e ->
         (e = StepLimitExceeded
          /\ List.length (executed (walk agent limit "llmCall" s w)) = limit)
         \/ (exists n, calls w <= n /\ oracle w n = Err e
                       /\ last (executed (walk agent limit "llmCall" s w))
                          = Some "llmCall")
         \/ ((e = TypeError \/ e = ValidationError)
             /\ last (executed (walk agent limit "llmCall" s w))
                = Some "toolNode").
Proof.
  induction limit as [limit IH] using lt_wf_ind. intros s w.
  destruct limit as [|limit].
  { simpl. split; [apply prefix_nil|]. split; [done|].
    intros e [= <-]. by left. }
  destruct (oracle w (calls w)) as [r|e0] eqn:Ho.
  2:{ rewrite (walk_llmCall_fail _ _ _ e0 Ho). simpl.
      split; [apply prefix_cons, prefix_nil|]. split; [lia|].
      intros e [= <-]. right. left. by exists (calls w). }
  destruct (has_length (tool_calls r)) eqn:Hlen.
  2:{ rewrite (walk_llmCall_stop _ _ _ r Ho Hlen). simpl.
      split; [apply prefix_cons, prefix_nil|]. split; [lia|]. discriminate. }
  rewrite (walk_llmCall_go _ _ _ r Ho Hlen). cbv zeta.
  destruct limit as [|limit].
  { simpl. split; [apply prefix_cons, prefix_nil|]. split; [lia|].
    intros e [= <-]. by left. }
  destruct (toolNode_result (answered s r) r (prompted s w))
    as [(msgs & Hnode & _) | (pre & tc & post & _ & _ & _ & Hnode)].
  { unfold answered, merge_messages, addMessages. simpl. apply last_snoc. }
  - rewrite (walk_toolNode_ok _ _ _ _ _ Hnode). cbv zeta.
    set (s2 := merge_messages (answered s r) {| messages := msgs |}).
    set (w2 := ran (or_empty (tool_calls r)) (prompted s w)).
    destruct (IH limit ltac:(lia) s2 w2) as (Hpre & Hle & Hfail).
    unfold stopped. cbn [outcome executed List.length].
    split; [|split; [lia|]].
    + cbn [cycles]. do 2 apply prefix_cons.
      etrans; [exact Hpre|]. apply prefix_cons, cycles_prefix_S.
    + intros e He.
      destruct (Hfail e He) as [[-> Hn] | [(n & Hn & Hon & Hl) | [He' Hl]]].
      * left. split; [done|]. lia.
      * right. left. exists n. split; [subst w2; simpl in Hn; lia|].
        split; [done|]. by do 2 apply last_cons_Some.
      * right. right. split; [done|]. by do 2 apply last_cons_Some.
  - rewrite (walk_toolNode_fail _ _ _ _ _ Hnode). simpl.
    split; [do 2 apply prefix_cons; apply prefix_nil|]. split; [lia|].
    intros e [= <-]. right. right. split; [|done].
    destruct (registered tc); auto.
Qed.

(** X5. In every walk of the graph agent the model-call node and the tool
    node alternate, starting with the model call, and at most [limit] nodes
    run.  A walk fails for one of three reasons only: the step limit, after
    exactly [limit] nodes; a failure of the model, at the model-call node; a
    call the tool node cannot execute (an unknown tool: TypeError; arguments
    that fail the schema: ValidationError), at the tool node.  The wiring
    itself never fails the walk. *)
Theorem graph_agent_failures (limit : nat) (s : MessagesState) (w : World) :
  let run := invoke agent limit s w in
  executed run `prefix_of` "llmCall" :: cycles limit
  /\ List.length (executed run) <= limit
  /\ forall e, outcome run = Err e ->
       (e = StepLimitExceeded /\ List.length (executed run) = limit)
       \/ (exists n, calls w <= n /\ oracle w n = Err e
                     /\ last (executed run) = Some "llmCall")
       \/ ((e = TypeError \/ e = ValidationError)
           /\ last (executed run) = Some "toolNode").
Proof. cbv zeta. rewrite invoke_agent. apply walk_failures. Qed.
End Failures2.

(** * The wiring of the two larger graphs *)

Section Paths.
Context {N : JsNumber} {St W : Type}.

Lemma walk_step (g : StateGraph St W) (limit : nat) (cur next : string)
  (node : St -> W -> result St * W) (s update : St) (w w' : W) :
  assoc cur (nodes g) = Some node ->
  node s w = (Ok update, w') ->
  resolve (edges g) cur (merge g s update) = Ok next ->
  next <> END ->
  walk g (S limit) cur s w
  = stopped (outcome (walk g limit next (merge g s update) w'))
      (cur :: executed (walk g limit next (merge g s update) w'))
      (merge g s update :: snapshots (walk g limit next (merge g s update) w'))
      (world (walk g limit next (merge g s update) w')).
Proof.
  intros Hnode Hrun Hnext Hne%String.eqb_neq.
  by rewrite walk_S, Hnode, Hrun; cbv zeta; rewrite Hnext, Hne.
Qed.

Lemma walk_last_step (g : StateGraph St W) (limit : nat) (cur : string)
  (node : St -> W -> result St * W) (s update : St) (w w' : W) :
  assoc cur (nodes g) = Some node ->
  node s w = (Ok update, w') ->
  resolve (edges g) cur (merge g s update) = Ok END ->
  walk g (S limit) cur s w
  = stopped (Ok (merge g s update)) [cur] [merge g s update] w'.
Proof.
  intros Hnode Hrun Hnext.
  by rewrite walk_S, Hnode, Hrun; cbv zeta; rewrite Hnext.
Qed.
End Paths.

Section ComplexPaths.
Context {N : JsNumber} {W : Type}.
Import Wiring.



End ComplexPaths.

Section DevinPaths.
Context {N : JsNumber} {W : Type}.
Import Wiring.

Lemma resolve_fetchWikiStructure (state : DevinMcp.GraphState) :
  resolve DevinMcp.graph_edges "fetchWikiStructure" state
  = Ok (if DevinMcp.truthy (DevinMcp.error state) then END
        else "fetchWikiContents").
Proof.
  assert ((DevinMcp.checkError state).1
          = if DevinMcp.truthy (DevinMcp.error state) then "end"
            else "continue") as Hlabel.
  { unfold DevinMcp.checkError.
    by destruct (DevinMcp.truthy (DevinMcp.error state)). }
  unfold resolve. simpl. rewrite Hlabel.
  by destruct (DevinMcp.truthy (DevinMcp.error state)).
Qed.

Lemma shouldAnswerQuestion_label (state : DevinMcp.GraphState) :
  (DevinMcp.shouldAnswerQuestion state).1 = "answer"
  \/ (DevinMcp.shouldAnswerQuestion state).1 = "skip".
Proof.
  unfold DevinMcp.shouldAnswerQuestion.
  destruct (DevinMcp.truthy (DevinMcp.error state)); [by right|].
  destruct (_ && _)%bool; [by left|by right].
Qed.

Lemma resolve_analyzeInsights (state : DevinMcp.GraphState) :
  resolve DevinMcp.graph_edges "analyzeInsights" state
  = Ok (if String.eqb (DevinMcp.shouldAnswerQuestion state).1 "answer"
        then "answerQuestion" else "generateSummary").
Proof.
  unfold resolve. simpl.
  by destruct (shouldAnswerQuestion_label state) as [-> | ->].
Qed.

(** X7. With the wiring of the document-analysis graph, whenever its nodes
    return their updates and the step limit is at least 5, the walk
    succeeds.  If the error channel is set after [fetchWikiStructure], the
    walk ends there, with that state, and no other node runs.  Otherwise it
    runs [fetchWikiContents] and [analyzeInsights], then [answerQuestion]
    exactly when [shouldAnswerQuestion] answers "answer" on the state just
    merged, then [generateSummary]. *)
Theorem devin_graph_path (g : StateGraph DevinMcp.GraphState W)
  (limit : nat) (s : DevinMcp.GraphState) (w : W) :
  edges g = DevinMcp.graph_edges ->
  all_succeed g devin_nodes ->
  5 <= limit ->
  let run := invoke g limit s w in
  exists fetched,
    snapshots run !! 0 = Some fetched
    /\ if DevinMcp.truthy (DevinMcp.error fetched) then
         outcome run = Ok fetched /\ executed run = ["fetchWikiStructure"]
       else
         exists analysed final,
           snapshots run !! 2 = Some analysed
           /\ outcome run = Ok final
           /\ executed run
              = ["fetchWikiStructure"; "fetchWikiContents"; "analyzeInsights"]
                ++ devin_branch (DevinMcp.shouldAnswerQuestion analysed).1
                ++ ["generateSummary"].
Proof.
  intros Hedges Hnodes Hlimit run. subst run.
  destruct limit as [|[|[|[|[|limit]]]]]; [lia..|].
  destruct (Hnodes "fetchWikiStructure") as (n1 & Hn1 & Hok1);
    [apply list_elem_of_here|].
  destruct (Hnodes "fetchWikiContents") as (n2 & Hn2 & Hok2);
    [apply list_elem_of_further, list_elem_of_here|].
  destruct (Hnodes "answerQuestion") as (n3 & Hn3 & Hok3);
    [do 2 apply list_elem_of_further; apply list_elem_of_here|].
  destruct (Hnodes "analyzeInsights") as (n4 & Hn4 & Hok4);
    [do 3 apply list_elem_of_further; apply list_elem_of_here|].
  destruct (Hnodes "generateSummary") as (n5 & Hn5 & Hok5);
    [do 4 apply list_elem_of_further; apply list_elem_of_here|].
  unfold invoke. rewrite Hedges.
  change (resolve DevinMcp.graph_edges START s)
    with (Ok "fetchWikiStructure" : result string).
  cbn [String.eqb Ascii.eqb Bool.eqb].
  destruct (Hok1 s w) as (u1 & w1 & Hrun1).
  set (s1 := merge g s u1). exists s1.
  pose proof (resolve_fetchWikiStructure s1) as Hroute1.
  rewrite <- Hedges in Hroute1.
  destruct (DevinMcp.truthy (DevinMcp.error s1)).
  { by rewrite (walk_last_step g _ "fetchWikiStructure" n1 s u1 w w1 Hn1 Hrun1). }
  rewrite (walk_step g _ "fetchWikiStructure" "fetchWikiContents" n1 s u1 w w1
             Hn1 Hrun1 Hroute1) by discriminate.
  destruct (Hok2 s1 w1) as (u2 & w2 & Hrun2).
  rewrite (walk_step g _ "fetchWikiContents" "analyzeInsights" n2 s1 u2 w1 w2
             Hn2 Hrun2); [|by rewrite Hedges|discriminate].
  destruct (Hok4 (merge g s1 u2) w2) as (u3 & w3 & Hrun3).
  set (s3 := merge g (merge g s1 u2) u3).
  pose proof (resolve_analyzeInsights s3) as Hroute3.
  rewrite <- Hedges in Hroute3.
  assert (forall (s4 : DevinMcp.GraphState) (w4 : W) (k : nat),
            exists final,
              outcome (walk g (S k) "generateSummary" s4 w4) = Ok final
              /\ executed (walk g (S k) "generateSummary" s4 w4)
                 = ["generateSummary"]) as Hsummary.
  { intros s4 w4 k. destruct (Hok5 s4 w4) as (u5 & w5 & Hrun5).
    rewrite (walk_last_step g _ "generateSummary" n5 s4 u5 w4 w5 Hn5 Hrun5);
      [|by rewrite Hedges].
    eexists. by split. }
  unfold devin_branch.
  destruct (String.eqb (DevinMcp.shouldAnswerQuestion s3).1 "answer") eqn:Hanswer.
  - rewrite (walk_step g _ "analyzeInsights" "answerQuestion" n4 _ u3 w2 w3
               Hn4 Hrun3 Hroute3) by discriminate.
    destruct (Hok3 s3 w3) as (u4 & w4 & Hrun4).
    rewrite (walk_step g _ "answerQuestion" "generateSummary" n3 s3 u4 w3 w4
               Hn3 Hrun4); [|by rewrite Hedges|discriminate].
    destruct (Hsummary (merge g s3 u4) w4 limit) as (final & Hout & Hex).
    unfold stopped. cbn [outcome executed snapshots]. split; [done|].
    exists s3, final. by rewrite Hout, Hex, Hanswer.
  - rewrite (walk_step g _ "analyzeInsights" "generateSummary" n4 _ u3 w2 w3
               Hn4 Hrun3 Hroute3) by discriminate.
    fold s3. destruct (Hsummary s3 w3 (S limit)) as (final & Hout & Hex).
    unfold stopped. cbn [outcome executed snapshots]. split; [done|].
    exists s3, final. by rewrite Hout, Hex, Hanswer.
Qed.
End DevinPaths.

Lemma assoc_idle {St} (names : list string) (n : string) :
  n ∈ names ->
  assoc n (Wiring.idle (St := St) names) = Some (fun s w => (Ok s, w)).
Proof.
  unfold Wiring.idle.
  induction names as [|x names IH]; intros Hn; [by apply elem_of_nil in Hn|].
  simpl. destruct (String.eqb n x) eqn:Hnx; [done|].
  apply elem_of_cons in Hn as [->|Hn]; [|by apply IH].
  by rewrite String.eqb_refl in Hnx.
Qed.

Lemma idle_succeed {St} (names : list string) (g : StateGraph St unit) :
  nodes g = Wiring.idle names -> Wiring.all_succeed g names.
Proof.
  intros Hnodes n Hn. exists (fun s w => (Ok s, w)). split.
  - rewrite Hnodes. by apply assoc_idle.
  - intros s w. by eexists _, _.
Qed.


Lemma devin_graph_path_witness :
  let run := invoke (Wiring.devin_idle (N := ZNumber)) 5
               (Scenario.asked (Some "What is it?") None) tt in
  exists fetched,
    snapshots run !! 0 = Some fetched
    /\ if DevinMcp.truthy (DevinMcp.error fetched) then
         outcome run = Ok fetched /\ executed run = ["fetchWikiStructure"]
       else
         exists analysed final,
           snapshots run !! 2 = Some analysed
           /\ outcome run = Ok final
           /\ executed run
              = ["fetchWikiStructure"; "fetchWikiContents"; "analyzeInsights"]
                ++ Wiring.devin_branch
                     (DevinMcp.shouldAnswerQuestion (N := ZNumber) analysed).1
                ++ ["generateSummary"].
Proof.
  apply (devin_graph_path (N := ZNumber) Wiring.devin_idle 5
           (Scenario.asked (Some "What is it?") None) tt).
  - reflexivity.
  - by apply idle_succeed.
  - lia.
Defined.

(** * The topic list of a wiki structure *)

Section TopicList.
Import Topics.

Local Notation "a +++ b" := (String.append a b)
  (at level 60, right associativity).

Lemma append_cons (c : ascii) (a b : string) :
  String c a +++ b = String c (a +++ b).
Proof. reflexivity. Qed.

Lemma append_nil_l (a : string) : EmptyString +++ a = a.
Proof. reflexivity. Qed.

Lemma append_nil_r (s : string) : s +++ EmptyString = s.
Proof.
  induction s as [|c s IH]; [done|]. by rewrite append_cons, IH.
Qed.

Lemma append_assoc (a b c : string) : (a +++ b) +++ c = a +++ (b +++ c).
Proof.
  induction a as [|x a IH]; [done|]. by rewrite !append_cons, IH.
Qed.

Lemma all_chars_app (p : ascii -> bool) (a b : string) :
  all_chars p (a +++ b) = (all_chars p a && all_chars p b)%bool.
Proof.
  induction a as [|x a IH]; [done|]. rewrite append_cons. simpl.
  rewrite IH. by destruct (p x).
Qed.

Lemma length_app (a b : string) :
  String.length (a +++ b) = String.length a + String.length b.
Proof.
  induction a as [|x a IH]; [done|]. rewrite append_cons. simpl. by rewrite IH.
Qed.

(** What a successful greedy quantifier took. *)
Lemma greedy_inv {A} (p : ascii -> bool) (s : string) :
  forall (min : nat) (max : option nat) (taken : string)
    (k : string -> string -> option A) (r : A),
    greedy p min max s taken k = Some r ->
    exists run rest,
      s = run +++ rest
      /\ all_chars p run = true
      /\ min <= String.length run
      /\ k (taken +++ run) rest = Some r.
Proof.
  induction s as [|c s IH]; intros min max taken k r.
  - simpl. destruct (Nat.eqb_spec min 0) as [->|]; [|discriminate].
    intros Hk. exists EmptyString, EmptyString.
    rewrite !append_nil_r. repeat split; [simpl; lia|exact Hk].
  - assert ((if Nat.eqb min 0 then k taken (String c s) else None) = Some r ->
            exists run rest,
              String c s = run +++ rest /\ all_chars p run = true
              /\ min <= String.length run /\ k (taken +++ run) rest = Some r)
      as Hhere.
    { destruct (Nat.eqb_spec min 0) as [->|]; [|discriminate].
      intros Hk. exists EmptyString, (String c s).
      rewrite append_nil_l, append_nil_r.
      repeat split; [simpl; lia|exact Hk]. }
    cbn [greedy]. destruct (p c && may_take max)%bool eqn:Hc; [|exact Hhere].
    destruct (greedy p (Nat.pred min) (Nat.pred <$> max) s
                (taken +++ String c EmptyString) k) as [r'|] eqn:Hmore;
      [|exact Hhere].
    intros [= ->]. apply IH in Hmore as (run & rest & -> & Hrun & Hmin & Hk).
    apply andb_true_iff in Hc as [Hc _].
    exists (String c run), rest. rewrite append_cons. simpl. rewrite Hc, Hrun.
    rewrite append_assoc, append_cons, append_nil_l in Hk.
    repeat split; [lia|exact Hk].
Qed.


Lemma greedy_once {A} (p : ascii -> bool) (c : ascii) (rest taken : string)
  (k : string -> string -> option A) :
  greedy p 1 (Some 1) (String c rest) taken k
  = if p c then k (taken +++ String c EmptyString) rest else None.
Proof.
  cbn [greedy Nat.eqb may_take]. destruct (p c); [|done]. cbn [andb].
  assert (greedy p (Nat.pred 1) (Nat.pred <$> Some 1) rest
            (taken +++ String c EmptyString) k
          = k (taken +++ String c EmptyString) rest) as ->.
  { destruct rest as [|c' rest]; simpl; [done|]. by rewrite andb_false_r. }
  by destruct (k _ _).
Qed.

Lemma greedy_once_nil {A} (p : ascii -> bool) (taken : string)
  (k : string -> string -> option A) :
  greedy p 1 (Some 1) EmptyString taken k = None.
Proof. reflexivity. Qed.

Lemma digit_or_dot_not_space (c : ascii) :
  matches DigitOrDot c = true -> is_white_space c = false.
Proof.
  unfold matches, is_digit, is_white_space.
  intros [Hd | Hdot%Ascii.eqb_eq]%orb_true_iff; [|by subst].
  apply andb_true_iff in Hd as [H1%Nat.leb_le H2%Nat.leb_le].
  rewrite !orb_false_iff. repeat split; apply Nat.eqb_neq; lia.
Qed.

Lemma space_not_digit_or_dot (c : ascii) :
  is_white_space c = true -> matches DigitOrDot c = false.
Proof.
  intros Hs. destruct (matches DigitOrDot c) eqn:Hd; [|done].
  apply digit_or_dot_not_space in Hd. congruence.
Qed.




Lemma split_on_line (line : string) :
  forall (rest cur : string),
    all_chars (fun c => negb (Ascii.eqb c LF)) line = true ->
    split_on LF (line +++ rest) cur = split_on LF rest (cur +++ line).
Proof.
  induction line as [|c line IH]; intros rest cur Hline.
  - by rewrite append_nil_r.
  - simpl in Hline. apply andb_true_iff in Hline as [Hc%negb_true_iff Hline].
    rewrite append_cons. cbn [split_on]. rewrite Hc, (IH _ _ Hline).
    by rewrite append_assoc, append_cons, append_nil_l.
Qed.




Lemma nonempty_length (s : string) : 1 <= String.length s -> s <> EmptyString.
Proof. destruct s; simpl; [lia|done]. Qed.

(** A line that matches is a numbered item, and group 1 is its text. *)
Lemma line_match_inv (line topic : string) :
  line_match line = Some topic -> numbered_item line topic.
Proof.
  unfold line_match.
  destruct (exec TOPIC_LINE line None) as [[g|]|] eqn:Hexec; try discriminate.
  intros [= ->]. unfold TOPIC_LINE in Hexec.
  cbn [exec class quant captured at_least at_most] in Hexec.
  apply greedy_inv in Hexec as (indent & r1 & -> & Hindent & _ & Hexec).
  destruct r1 as [|c r1]; [discriminate|].
  rewrite greedy_once in Hexec. cbn [matches] in Hexec.
  destruct (Ascii.eqb_spec c "-") as [->|]; [|discriminate].
  apply greedy_inv in Hexec as (gap1 & r2 & -> & Hgap1 & Hlen1 & Hexec).
  apply greedy_inv in Hexec as (num & r3 & -> & Hnum & Hlen2 & Hexec).
  apply greedy_inv in Hexec as (gap2 & r4 & -> & Hgap2 & Hlen3 & Hexec).
  apply greedy_inv in Hexec as (g & r5 & -> & Hg & Hlen4 & Hexec).
  destruct r5; [|discriminate]. injection Hexec as <-.
  rewrite append_nil_l, append_nil_r.
  exists indent, gap1, num, gap2.
  repeat split; try done; by apply nonempty_length.
Qed.

(** The end of a string that ends with [c]. *)
Lemma ends_with (c : ascii) (pre : string) :
  forall (l g : string),
    l +++ String c EmptyString = pre +++ g ->
    g <> EmptyString ->
    exists g', g = g' +++ String c EmptyString.
Proof.
  induction pre as [|a pre IH]; intros l g Heq Hg.
  - exists l. by rewrite append_nil_l in Heq.
  - rewrite append_cons in Heq. destruct l as [|b l].
    + rewrite append_nil_l in Heq. injection Heq as _ Heq.
      destruct pre; [|discriminate]. by rewrite append_nil_l in Heq.
    + rewrite append_cons in Heq. injection Heq as _ Heq. by apply (IH l).
Qed.

Lemma line_match_CR (l : string) :
  line_match (l +++ String CR EmptyString) = None.
Proof.
  destruct (line_match (l +++ String CR EmptyString)) as [topic|] eqn:Hm;
    [|done].
  apply line_match_inv in Hm
    as (indent & gap1 & num & gap2 & Heq & _ & _ & _ & _ & _ & _ & _ & Htopic & Hne).
  rewrite <- !append_assoc in Heq.
  destruct (ends_with CR _ l topic Heq Hne) as [g' ->].
  rewrite all_chars_app in Htopic.
  apply andb_true_iff in Htopic as [_ Htopic]. discriminate.
Qed.

(** X9. Every topic [parseTopicList] returns is the trimmed text of a
    numbered item among the lines of the input: a line made of optional white
    space, a dash, white space, a run of digits and dots, white space and a
    non-empty text without line terminator.  Nothing else in the input gives a
    topic. *)
Theorem topics_come_from_numbered_items (text topic : string) :
  topic ∈ parseTopicList text ->
  exists line item,
    line ∈ split_on LF text EmptyString
    /\ numbered_item line item
    /\ topic = trim item.
Proof.
  unfold parseTopicList. intros (line & Hline & Hm)%list_elem_of_omap.
  destruct (line_match line) as [item|] eqn:Hitem; [|discriminate].
  injection Hm as <-. exists line, item. split; [done|]. split; [|done].
  by apply line_match_inv.
Qed.

(** X10. A line that ends with a carriage return is never a numbered item
    for the pattern, so in a text whose lines are joined by carriage return
    and line feed only the last line can give a topic: the topics of such a
    text are those of its last line alone. *)
Theorem crlf_text_keeps_the_last_line_only (lines : list string) (last : string) :
  Forall (fun line => all_chars (fun c => negb (Ascii.eqb c LF)) line = true)
    (lines ++ [last]) ->
  parseTopicList (String.concat CRLF (lines ++ [last])) = parseTopicList last.
Proof.
  induction lines as [|line lines IH]; intros Hlines; [reflexivity|].
  apply Forall_cons in Hlines as [Hline Hlines].
  specialize (IH Hlines). unfold parseTopicList in *.
  cbn [app String.concat]. destruct (lines ++ [last]) as [|x xs] eqn:Hx.
  { by destruct lines. }
  rewrite (split_on_line line _ EmptyString Hline). unfold CRLF at 1.
  rewrite !append_cons, !append_nil_l. cbn [split_on].
  change (Ascii.eqb CR LF) with false. cbn iota. rewrite Ascii.eqb_refl.
  cbn [omap list_omap]. rewrite line_match_CR. exact IH.
Qed.
End TopicList.


Lemma topics_come_from_numbered_items_witness :
  exists line item,
    line ∈ Topics.split_on Topics.LF
             (String.append "# Contents"
                (String Topics.LF "  - 2.1 Routing  ")) EmptyString
    /\ Topics.numbered_item line item
    /\ "Routing" = trim item.
Proof.
  apply (topics_come_from_numbered_items
           (String.append "# Contents" (String Topics.LF "  - 2.1 Routing  "))
           "Routing").
  vm_compute. apply list_elem_of_here.
Defined.

Lemma crlf_text_keeps_the_last_line_only_witness :
  Topics.parseTopicList
    (String.concat Topics.CRLF (["- 1 Overview"; "- 2 Usage"] ++ ["- 3 API"]))
  = Topics.parseTopicList "- 3 API".
Proof.
  apply (crlf_text_keeps_the_last_line_only ["- 1 Overview"; "- 2 Usage"] "- 3 API").
  cbn [app].
  repeat (apply Forall_cons; split); [reflexivity..|constructor].
Defined.

(** * What a walk of the graph agent does to the world *)

Section WorldOfAWalk.
Context {N : JsNumber}.
Import Calculator Graph Props Transcript.

Lemma count_llmCall_cons (n : string) (l : list string) :
  List.length (filter (fun x => x = "llmCall") (n :: l))
  = (if decide (n = "llmCall") then 1 else 0)
    + List.length (filter (fun x => x = "llmCall") l).
Proof. rewrite filter_cons. by destruct (decide _). Qed.

Lemma walk_world (limit : nat) :
  forall (s : MessagesState) (w : World),
    oracle (world (walk agent limit "llmCall" s w)) = oracle w
    /\ exists prompts calls_run,
         sent (world (walk agent limit "llmCall" s w)) = sent w ++ prompts
         /\ invoked (world (walk agent limit "llmCall" s w))
            = invoked w ++ calls_run
         /\ calls (world (walk agent limit "llmCall" s w))
            = calls w + List.length prompts
         /\ List.length prompts
            = List.length (filter (fun n => n = "llmCall")
                             (executed (walk agent limit "llmCall" s w)))
         /\ Forall (fun p => exists rest,
                        p = SystemMessage SYSTEM_PROMPT :: messages s ++ rest)
              prompts
         /\ forallb valid_call calls_run = true.
Proof.
  induction limit as [limit IH] using lt_wf_ind. intros s w.
  assert (forall run : Run MessagesState World,
            world run = prompted s w ->
            executed run = ["llmCall"] ->
            oracle (world run) = oracle w
            /\ exists prompts calls_run,
                 sent (world run) = sent w ++ prompts
                 /\ invoked (world run) = invoked w ++ calls_run
                 /\ calls (world run) = calls w + List.length prompts
                 /\ List.length prompts
                    = List.length (filter (fun n => n = "llmCall") (executed run))
                 /\ Forall (fun p => exists rest,
                                p = SystemMessage SYSTEM_PROMPT :: messages s ++ rest)
                      prompts
                 /\ forallb valid_call calls_run = true) as Hone.
  { intros run -> ->. split; [done|].
    exists [SystemMessage SYSTEM_PROMPT :: messages s], [].
    cbn [sent invoked calls prompted List.length].
    rewrite app_nil_r, count_llmCall_cons, decide_True by done.
    repeat split; [lia|].
    constructor; [|constructor]. exists []. by rewrite app_nil_r. }
  destruct limit as [|limit].
  { simpl. split; [done|]. exists [], []. rewrite !app_nil_r. simpl.
    repeat split; [lia|constructor]. }
  destruct (oracle w (calls w)) as [r|e0] eqn:Ho.
  2:{ rewrite (walk_llmCall_fail _ _ _ e0 Ho). by apply Hone. }
  destruct (has_length (tool_calls r)) eqn:Hlen.
  2:{ rewrite (walk_llmCall_stop _ _ _ r Ho Hlen). by apply Hone. }
  rewrite (walk_llmCall_go _ _ _ r Ho Hlen). cbv zeta.
  destruct limit as [|limit]; [by apply Hone|].
  destruct (toolNode_result (answered s r) r (prompted s w))
    as [(msgs & Hnode & Hvalid) | (pre & tc & post & _ & Hpre & _ & Hnode)].
  { unfold answered, merge_messages, addMessages. simpl. apply last_snoc. }
  - rewrite (walk_toolNode_ok _ _ _ _ _ Hnode). cbv zeta.
    set (s2 := merge_messages (answered s r) {| messages := msgs |}).
    set (w2 := ran (or_empty (tool_calls r)) (prompted s w)).
    destruct (IH limit ltac:(lia) s2 w2)
      as (Horacle & prompts & calls_run & Hsent & Hinv & Hcalls & Hcount
          & Hprompts & Hran).
    unfold stopped. cbn [world executed]. split; [by rewrite Horacle|].
    exists ((SystemMessage SYSTEM_PROMPT :: messages s) :: prompts),
      (or_empty (tool_calls r) ++ calls_run).
    split.
    { rewrite Hsent. subst w2. cbn [sent ran prompted].
      by rewrite <- app_assoc. }
    split.
    { rewrite Hinv. subst w2. cbn [invoked ran prompted].
      by rewrite <- app_assoc. }
    split.
    { rewrite Hcalls. subst w2. cbn [calls ran prompted List.length]. lia. }
    split.
    { rewrite !count_llmCall_cons, <- Hcount.
      rewrite decide_True by done. rewrite decide_False by done.
      cbn [List.length]. lia. }
    split; [|by rewrite forallb_app, Hvalid, Hran].
    constructor; [exists []; by rewrite app_nil_r|].
    eapply Forall_impl; [exact Hprompts|]. intros p [rest ->].
    subst s2. unfold answered, merge_messages, addMessages. cbn [messages].
    exists ([AIMessage r] ++ msgs ++ rest). by rewrite <- !app_assoc.
  - rewrite (walk_toolNode_fail _ _ _ _ _ Hnode).
    unfold stopped. cbn [world executed]. split; [done|].
    exists [SystemMessage SYSTEM_PROMPT :: messages s], pre.
    cbn [sent invoked calls ran prompted List.length]. rewrite Hpre.
    rewrite !count_llmCall_cons, decide_True by done.
    rewrite decide_False by done.
    repeat split; [lia|].
    constructor; [|constructor]. exists []. by rewrite app_nil_r.
Qed.

(** X11. Whatever the outcome of a walk of the graph agent: the model is
    called once per execution of the model-call node; each prompt it is sent
    starts with the system prompt, followed by the whole initial transcript
    and what the walk has appended since; and the only tool bodies that ran
    are those of calls that name a registered tool with arguments that pass
    its schema.  The prompts and calls of earlier walks are kept. *)
Theorem world_of_a_walk (limit : nat) (s : MessagesState) (w : World) :
  let run := invoke agent limit s w in
  oracle (world run) = oracle w
  /\ exists prompts calls_run,
       sent (world run) = sent w ++ prompts
       /\ invoked (world run) = invoked w ++ calls_run
       /\ calls (world run) = calls w + List.length prompts
       /\ List.length prompts
          = List.length (filter (fun n => n = "llmCall") (executed run))
       /\ Forall (fun p => exists rest,
                      p = SystemMessage SYSTEM_PROMPT :: messages s ++ rest)
            prompts
       /\ forallb valid_call calls_run = true.
Proof. cbv zeta. rewrite invoke_agent. apply walk_world. Qed.
End WorldOfAWalk.

(** * The processText tool *)

Section TextToolFacts.
Variables toUpperCase toLowerCase : string -> string.

Local Notation "a +++ b" := (String.append a b)
  (at level 60, right associativity).

Lemma rev_app_acc (s : string) :
  forall acc, String.rev_app s acc = String.rev_app s EmptyString +++ acc.
Proof.
  induction s as [|a s IH]; intros acc; [done|].
  cbn [String.rev_app]. rewrite (IH (String a acc)), (IH (String a EmptyString)).
  by rewrite append_assoc, append_cons, append_nil_l.
Qed.

Lemma rev_cons (a : ascii) (s : string) :
  String.rev (String a s) = String.rev s +++ String a EmptyString.
Proof. unfold String.rev. cbn [String.rev_app]. apply rev_app_acc. Qed.

Lemma rev_append (a b : string) :
  String.rev (a +++ b) = String.rev b +++ String.rev a.
Proof.
  induction a as [|x a IH].
  - rewrite append_nil_l. by rewrite append_nil_r.
  - by rewrite append_cons, !rev_cons, IH, append_assoc.
Qed.

Lemma rev_involutive (s : string) : String.rev (String.rev s) = s.
Proof.
  induction s as [|a s IH]; [done|].
  rewrite rev_cons, rev_append, IH. reflexivity.
Qed.

Lemma length_rev (s : string) : String.length (String.rev s) = String.length s.
Proof.
  induction s as [|a s IH]; [done|].
  rewrite rev_cons, length_app, IH. simpl. lia.
Qed.

(** X12. The reverse operation of the processText tool is its own inverse:
    reversing twice gives the text back, and a reversed text reports the same
    length as the text. *)
Theorem processText_reverse_round_trip (text : string) :
  let process := TextTool.processText toUpperCase toLowerCase in
  process (process text "reverse") "reverse" = text
  /\ process (process text "reverse") "length" = process text "length".
Proof.
  cbv zeta. unfold TextTool.processText. cbn [String.eqb Ascii.eqb Bool.eqb].
  split; [apply rev_involutive|]. by rewrite length_rev.
Qed.
End TextToolFacts.
